(** * wallet/crypter.cpp: the symmetric cipher and the encrypted key store

    A shallow embedding of [CCrypter] and [CCryptoKeyStore] and the
    properties of their lock/unlock/migration state machine.

    Conventions of the embedding:
    - an [int] is a [Z] reduced to 32 bits in two's complement ([to_int]),
      a [size_t] is a [Z] reduced modulo 2^64 ([to_size_t]);
    - byte buffers ([std::vector<unsigned char>], [CKeyingMaterial],
      [uint256], [CPubKey], ...) are [list byte];
    - a C++ function [bool f(in, T& out)] becomes a function returning the
      pair of the boolean and the new value of [out];
    - a call may return, throw a C++ exception, or stop the process in
      [assert(false)]: the three cases of [outcome];
    - a [std::map] is an association list kept sorted by key, so that
      iteration order is the one of the C++ container;
    - locks ([LOCK], [LOCK2]) are not modelled: the embedding is sequential.
*)

From Stdlib Require Import ZArith List Bool Lia.
From Stdlib Require Import Strings.Byte.
Import ListNotations.
Open Scope Z_scope.

(** ** Byte buffers *)

Definition bytes := list byte.

Definition byte_eqb (a b : byte) : bool := N.eqb (Byte.to_N a) (Byte.to_N b).

Fixpoint bytes_eqb (a b : bytes) : bool :=
  match a, b with
  | [], [] => true
  | x :: a', y :: b' => byte_eqb x y && bytes_eqb a' b'
  | _, _ => false
  end.

(** [memcmp]-style comparison (the order of [base_blob] and therefore of the
    keys of the maps below); a proper prefix sorts first. *)
Fixpoint bytes_ltb (a b : bytes) : bool :=
  match a, b with
  | _, [] => false
  | [], _ :: _ => true
  | x :: a', y :: b' =>
      if N.ltb (Byte.to_N x) (Byte.to_N y) then true
      else if byte_eqb x y then bytes_ltb a' b' else false
  end.

Definition zeros (n : nat) : bytes := repeat x00 n.

(** Writing [out] at the start of the buffer [buf]: the buffer keeps its
    size. *)
Definition store_at_start (buf out : bytes) : bytes :=
  firstn (length buf) (out ++ skipn (length out) buf).

(** ** Machine integers *)

Definition to_int (z : Z) : Z := (z + 2 ^ 31) mod 2 ^ 32 - 2 ^ 31.
Definition INT_MAX : Z := 2 ^ 31 - 1.
Definition to_size_t (z : Z) : Z := z mod 2 ^ 64.
Definition to_ull (z : Z) : Z := z mod 2 ^ 64.

(** [std::vector::max_size()] for a vector of bytes. *)
Definition vector_max_size : Z := 2 ^ 63 - 1.

(** ** Outcomes of a call *)

Inductive outcome (A : Type) : Type :=
| Ret (a : A)         (* the call returns [a] *)
| Throw               (* a C++ exception leaves the call *)
| Abort.              (* [assert(false)]: the process stops *)
Arguments Ret {A} a.
Arguments Throw {A}.
Arguments Abort {A}.

Definition obind {A B} (o : outcome A) (k : A -> outcome B) : outcome B :=
  match o with
  | Ret a => k a
  | Throw => Throw
  | Abort => Abort
  end.

Declare Scope outcome_scope.
Delimit Scope outcome_scope with outcome.
Notation "x <- c ;; k" := (obind c (fun x => k))
  (at level 61, c at next level, right associativity) : outcome_scope.

(** [std::vector<unsigned char>(n)] (and [CKeyingMaterial(n)]) called with an
    [int]: the argument is converted to [size_type]; a size above
    [max_size()] makes the constructor throw, otherwise the vector holds
    [n] zero bytes. *)
Definition new_vector (n : Z) : outcome bytes :=
  let sz := to_size_t n in
  if vector_max_size <? sz then Throw else Ret (zeros (Z.to_nat sz)).

(** ** Constants *)

(** Modelled from the spec: [WALLET_CRYPTO_KEY_SIZE] of crypter.h, the fixed
    size of the master key and of the IV ("fixed size (32 bytes)"); the
    arrays [chKey] and [chIV] of [CCrypter] have this size. *)
Definition WALLET_CRYPTO_KEY_SIZE : nat := 32.

(** [crypto_secretbox_MACBYTES] of libsodium: the authentication-tag length. *)
Definition crypto_secretbox_MACBYTES : Z := 16.

(** ** External collaborators

    What crypter.cpp calls and does not define: libsodium, the
    serialization helpers, the hashes of the public identities and the
    elliptic-curve and shielded key types.  They are operations of a class;
    the laws a property needs are stated as hypotheses where they are used. *)

Definition CPubKey := bytes.
Definition CKeyID := bytes.
Definition uint256 := bytes.
Definition CKeyingMaterial := bytes.
Definition SpendingKey := bytes.
Definition PaymentAddress := bytes.
Definition ViewingKey := bytes.

Class Collaborators : Type := {
  (** [WALLET_CRYPTO_SALT_SIZE] of crypter.h *)
  WALLET_CRYPTO_SALT_SIZE : nat;
  (** [libzcash::SerializedSpendingKeySize] *)
  SerializedSpendingKeySize : nat;
  (** [ReadCompactSize] on a stream over the given bytes; [None] when it
      throws *)
  ReadCompactSize : bytes -> option Z;
  (** [crypto_pwhash(out, outlen, passwd, passwdlen, salt, opslimit,
      memlimit, alg)]: [Some out] when it returns 0 *)
  crypto_pwhash : nat -> bytes -> bytes -> Z -> Z -> option bytes;
  (** [crypto_secretbox_easy(c, m, mlen, n, k)]: [Some c] when it returns 0 *)
  crypto_secretbox_easy : bytes -> Z -> bytes -> bytes -> option bytes;
  (** [crypto_secretbox_open_easy(m, c, clen, n, k)]: [Some m] when it
      returns 0 *)
  crypto_secretbox_open_easy : bytes -> Z -> bytes -> bytes -> option bytes;
  (** [CPubKey::GetHash], [CPubKey::GetID], [CPubKey::IsCompressed] *)
  PubKey_GetHash : CPubKey -> uint256;
  PubKey_GetID : CPubKey -> CKeyID;
  PubKey_IsCompressed : CPubKey -> bool;
  (** the public key of a secret, [compressed] or not (secp256k1) *)
  secp256k1_pubkey : bytes -> bool -> CPubKey;
  (** [ss << sk] and [ss >> sk] for a spending key *)
  SpendingKey_serialize : SpendingKey -> bytes;
  SpendingKey_unserialize : bytes -> SpendingKey;
  (** [SpendingKey::address], [SpendingKey::viewing_key],
      [PaymentAddress::GetHash] *)
  SpendingKey_address : SpendingKey -> PaymentAddress;
  SpendingKey_viewing_key : SpendingKey -> ViewingKey;
  PaymentAddress_GetHash : PaymentAddress -> uint256
}.

(** ** CCrypter *)

Module Crypter.

Record CCrypter : Type := mkCrypter {
  chKey : bytes;
  chIV : bytes;
  fKeySet : bool
}.

Definition set_fKeySet (b : bool) (c : CCrypter) : CCrypter :=
  mkCrypter (chKey c) (chIV c) b.

(** The constructor only clears [fKeySet].  The two arrays are left
    uninitialised in C++; they are zero here, and [EncryptSecret] and
    [DecryptSecret] write both through [SetKey] before any use. *)
Definition CCrypter_new : CCrypter :=
  mkCrypter (zeros WALLET_CRYPTO_KEY_SIZE) (zeros WALLET_CRYPTO_KEY_SIZE) false.

Section WithCollaborators.
Context `{Collaborators}.

(** [bool CCrypter::SetKeyFromPassphrase(strKeyData, chSalt, nRounds,
    nDerivationMethod, vchOtherDerivationParameters)] *)
Definition SetKeyFromPassphrase (c : CCrypter) (strKeyData chSalt : bytes)
    (nRounds nDerivationMethod : N) (vchOtherDerivationParameters : bytes)
  : bool * CCrypter :=
  if (nRounds <? 1)%N || negb (length chSalt =? WALLET_CRYPTO_SALT_SIZE)%nat
  then (false, c)
  else
    let derived : option CCrypter :=
      if (nDerivationMethod =? 0)%N then
        match ReadCompactSize vchOtherDerivationParameters with
        | None => None
        | Some memlimit =>
            match crypto_pwhash (WALLET_CRYPTO_KEY_SIZE + WALLET_CRYPTO_KEY_SIZE)
                    strKeyData chSalt (Z.of_N nRounds) memlimit with
            | None => None
            | Some chOut =>
                Some (mkCrypter (firstn WALLET_CRYPTO_KEY_SIZE chOut)
                        (firstn WALLET_CRYPTO_KEY_SIZE
                           (skipn WALLET_CRYPTO_KEY_SIZE chOut))
                        (fKeySet c))
            end
        end
      else Some c in
    match derived with
    | None => (false, c)
    | Some c' => (true, set_fKeySet true c')
    end.

(** [bool CCrypter::SetKey(chNewKey, chNewIV)] *)
Definition SetKey (c : CCrypter) (chNewKey : CKeyingMaterial) (chNewIV : bytes)
  : bool * CCrypter :=
  if negb (length chNewKey =? WALLET_CRYPTO_KEY_SIZE)%nat
     || negb (length chNewIV =? WALLET_CRYPTO_KEY_SIZE)%nat
  then (false, c)
  else (true, mkCrypter (firstn WALLET_CRYPTO_KEY_SIZE chNewKey)
                (firstn WALLET_CRYPTO_KEY_SIZE chNewIV) true).

(** [bool CCrypter::Encrypt(vchPlaintext, vchCiphertext&)]; the second
    argument is the value of [vchCiphertext] before the call. *)
Definition Encrypt (c : CCrypter) (vchPlaintext : CKeyingMaterial)
    (vchCiphertext : bytes) : outcome (bool * bytes) :=
  if negb (fKeySet c) then Ret (false, vchCiphertext)
  else
    let nLen := to_int (Z.of_nat (length vchPlaintext)) in
    let nCLen := to_int (nLen + crypto_secretbox_MACBYTES) in
    (buf <- new_vector nCLen ;;
     match crypto_secretbox_easy vchPlaintext (to_ull nLen) (chIV c) (chKey c) with
     | Some out => Ret (true, store_at_start buf out)
     | None => Ret (false, buf)
     end)%outcome.

(** [bool CCrypter::Decrypt(vchCiphertext, vchPlaintext&)] *)
Definition Decrypt (c : CCrypter) (vchCiphertext : bytes)
    (vchPlaintext : CKeyingMaterial) : outcome (bool * CKeyingMaterial) :=
  if negb (fKeySet c) then Ret (false, vchPlaintext)
  else
    let nLen := to_int (Z.of_nat (length vchCiphertext)) in
    let nPLen := to_int (nLen - crypto_secretbox_MACBYTES) in
    (buf <- new_vector nPLen ;;
     match crypto_secretbox_open_easy vchCiphertext (to_ull nLen) (chIV c) (chKey c) with
     | Some out => Ret (true, store_at_start buf out)
     | None => Ret (false, buf)
     end)%outcome.

End WithCollaborators.
End Crypter.

(** ** [std::map] with byte-string keys *)

Section StdMap.
Context {V : Type}.

Definition std_map : Type := list (bytes * V).

Definition map_empty (m : std_map) : bool :=
  match m with [] => true | _ :: _ => false end.

(** [m.find(k)] *)
Fixpoint map_find (k : bytes) (m : std_map) : option V :=
  match m with
  | [] => None
  | (k', v) :: r => if bytes_eqb k k' then Some v else map_find k r
  end.

(** [m[k] = v]: the value of an existing key is replaced. *)
Fixpoint map_assign (k : bytes) (v : V) (m : std_map) : std_map :=
  match m with
  | [] => [(k, v)]
  | (k', v') :: r =>
      if bytes_ltb k k' then (k, v) :: m
      else if bytes_eqb k k' then (k, v) :: r
      else (k', v') :: map_assign k v r
  end.

(** [m.insert(make_pair(k, v))]: an existing key keeps its value. *)
Fixpoint map_insert (k : bytes) (v : V) (m : std_map) : std_map :=
  match m with
  | [] => [(k, v)]
  | (k', v') :: r =>
      if bytes_ltb k k' then (k, v) :: m
      else if bytes_eqb k k' then m
      else (k', v') :: map_insert k v r
  end.

End StdMap.
Arguments std_map V : clear implicits.

(** ** Keys *)

(** Modelled from the spec: [CKey] of key.h (not part of crypter.cpp), a
    "raw secret" together with the compression flag of its public key;
    crypter.cpp reads the secret through [begin]/[end].  The validity flag
    of a key is not modelled. *)
Record CKey : Type := mkKey {
  key_secret : bytes;
  key_fCompressed : bool
}.

(** Modelled from the spec: [CKey::Set(pbegin, pend, fCompressedIn)] of
    key.h, the key of "the decrypted secret". *)
Definition CKey_Set (secret : bytes) (fCompressedIn : bool) : CKey :=
  mkKey secret fCompressedIn.

(** Modelled from the spec: a default-constructed [CKey], which holds no
    secret yet. *)
Definition CKey_new : CKey := mkKey [] false.

Section Secrets.
Context `{Collaborators}.
Import Crypter.
Local Open Scope outcome_scope.

(** Modelled from the spec: [CKey::GetPubKey] of key.cpp, the public key
    "reconstruct[ed] from the decrypted secret". *)
Definition CKey_GetPubKey (key : CKey) : CPubKey :=
  secp256k1_pubkey (key_secret key) (key_fCompressed key).

(** Modelled from the spec: [CKey::VerifyPubKey] of key.cpp, "reconstruct
    the public key from the decrypted secret and verify it matches the
    stored public identity". *)
Definition CKey_VerifyPubKey (key : CKey) (pubkey : CPubKey) : bool :=
  bytes_eqb (CKey_GetPubKey key) pubkey.

(** [std::vector<unsigned char> chIV(WALLET_CRYPTO_KEY_SIZE);
    memcpy(&chIV[0], &nIV, WALLET_CRYPTO_KEY_SIZE);] *)
Definition iv_of_uint256 (nIV : uint256) : bytes :=
  store_at_start (zeros WALLET_CRYPTO_KEY_SIZE) nIV.

(** [static bool EncryptSecret(vMasterKey, vchPlaintext, nIV,
    vchCiphertext&)] *)
Definition EncryptSecret (vMasterKey vchPlaintext : CKeyingMaterial)
    (nIV : uint256) (vchCiphertext : bytes) : outcome (bool * bytes) :=
  let cKeyCrypter := CCrypter_new in
  let chIV := iv_of_uint256 nIV in
  let '(ok, cKeyCrypter) := SetKey cKeyCrypter vMasterKey chIV in
  if negb ok then Ret (false, vchCiphertext)
  else Encrypt cKeyCrypter vchPlaintext vchCiphertext.

(** [static bool DecryptSecret(vMasterKey, vchCiphertext, nIV,
    vchPlaintext&)] *)
Definition DecryptSecret (vMasterKey : CKeyingMaterial) (vchCiphertext : bytes)
    (nIV : uint256) (vchPlaintext : CKeyingMaterial)
  : outcome (bool * CKeyingMaterial) :=
  let cKeyCrypter := CCrypter_new in
  let chIV := iv_of_uint256 nIV in
  let '(ok, cKeyCrypter) := SetKey cKeyCrypter vMasterKey chIV in
  if negb ok then Ret (false, vchPlaintext)
  else Decrypt cKeyCrypter vchCiphertext vchPlaintext.

(** [static bool DecryptKey(vMasterKey, vchCryptedSecret, vchPubKey, key&)] *)
Definition DecryptKey (vMasterKey : CKeyingMaterial) (vchCryptedSecret : bytes)
    (vchPubKey : CPubKey) (key : CKey) : outcome (bool * CKey) :=
  r <- DecryptSecret vMasterKey vchCryptedSecret (PubKey_GetHash vchPubKey) [] ;;
  let '(ok, vchSecret) := r in
  if negb ok then Ret (false, key)
  else if negb (length vchSecret =? 32)%nat then Ret (false, key)
  else
    let key := CKey_Set vchSecret (PubKey_IsCompressed vchPubKey) in
    Ret (CKey_VerifyPubKey key vchPubKey, key).

(** [static bool DecryptSpendingKey(vMasterKey, vchCryptedSecret, address,
    sk&)] *)
Definition DecryptSpendingKey (vMasterKey : CKeyingMaterial)
    (vchCryptedSecret : bytes) (address : PaymentAddress) (sk : SpendingKey)
  : outcome (bool * SpendingKey) :=
  r <- DecryptSecret vMasterKey vchCryptedSecret (PaymentAddress_GetHash address) [] ;;
  let '(ok, vchSecret) := r in
  if negb ok then Ret (false, sk)
  else if negb (length vchSecret =? SerializedSpendingKeySize)%nat
  then Ret (false, sk)
  else
    let sk := SpendingKey_unserialize vchSecret in
    Ret (bytes_eqb (SpendingKey_address sk) address, sk).

End Secrets.

(** ** CCryptoKeyStore *)

Module KeyStore.

(** The members of [CCryptoKeyStore], those inherited from
    [CBasicKeyStore] first.  [nStatusChanged] counts the emissions of the
    signal [NotifyStatusChanged]. *)
Record Store : Type := mkStore {
  mapKeys : std_map CKey;
  mapSpendingKeys : std_map SpendingKey;
  mapNoteDecryptors : std_map ViewingKey;
  mapCryptedKeys : std_map (CPubKey * bytes);
  mapCryptedSpendingKeys : std_map bytes;
  vMasterKey : CKeyingMaterial;
  fUseCrypto : bool;
  fDecryptionThoroughlyChecked : bool;
  nStatusChanged : nat
}.

Definition set_mapKeys v s :=
  mkStore v (mapSpendingKeys s) (mapNoteDecryptors s) (mapCryptedKeys s)
    (mapCryptedSpendingKeys s) (vMasterKey s) (fUseCrypto s)
    (fDecryptionThoroughlyChecked s) (nStatusChanged s).
Definition set_mapSpendingKeys v s :=
  mkStore (mapKeys s) v (mapNoteDecryptors s) (mapCryptedKeys s)
    (mapCryptedSpendingKeys s) (vMasterKey s) (fUseCrypto s)
    (fDecryptionThoroughlyChecked s) (nStatusChanged s).
Definition set_mapNoteDecryptors v s :=
  mkStore (mapKeys s) (mapSpendingKeys s) v (mapCryptedKeys s)
    (mapCryptedSpendingKeys s) (vMasterKey s) (fUseCrypto s)
    (fDecryptionThoroughlyChecked s) (nStatusChanged s).
Definition set_mapCryptedKeys v s :=
  mkStore (mapKeys s) (mapSpendingKeys s) (mapNoteDecryptors s) v
    (mapCryptedSpendingKeys s) (vMasterKey s) (fUseCrypto s)
    (fDecryptionThoroughlyChecked s) (nStatusChanged s).
Definition set_mapCryptedSpendingKeys v s :=
  mkStore (mapKeys s) (mapSpendingKeys s) (mapNoteDecryptors s)
    (mapCryptedKeys s) v (vMasterKey s) (fUseCrypto s)
    (fDecryptionThoroughlyChecked s) (nStatusChanged s).
Definition set_vMasterKey v s :=
  mkStore (mapKeys s) (mapSpendingKeys s) (mapNoteDecryptors s)
    (mapCryptedKeys s) (mapCryptedSpendingKeys s) v (fUseCrypto s)
    (fDecryptionThoroughlyChecked s) (nStatusChanged s).
Definition set_fUseCrypto v s :=
  mkStore (mapKeys s) (mapSpendingKeys s) (mapNoteDecryptors s)
    (mapCryptedKeys s) (mapCryptedSpendingKeys s) (vMasterKey s) v
    (fDecryptionThoroughlyChecked s) (nStatusChanged s).
Definition set_fDecryptionThoroughlyChecked v s :=
  mkStore (mapKeys s) (mapSpendingKeys s) (mapNoteDecryptors s)
    (mapCryptedKeys s) (mapCryptedSpendingKeys s) (vMasterKey s)
    (fUseCrypto s) v (nStatusChanged s).
Definition set_nStatusChanged v s :=
  mkStore (mapKeys s) (mapSpendingKeys s) (mapNoteDecryptors s)
    (mapCryptedKeys s) (mapCryptedSpendingKeys s) (vMasterKey s)
    (fUseCrypto s) (fDecryptionThoroughlyChecked s) v.

(** A freshly constructed store. *)
Definition Store_new : Store := mkStore [] [] [] [] [] [] false false 0.

(** *** Member functions as state transformers

    A member function takes the store and gives back its outcome together
    with the store as the call leaves it (also when it throws). *)

Definition M (A : Type) : Type := Store -> outcome A * Store.

Definition ret {A} (a : A) : M A := fun s => (Ret a, s).

Definition bind {A B} (m : M A) (k : A -> M B) : M B :=
  fun s =>
    match m s with
    | (Ret a, s') => k a s'
    | (Throw, s') => (Throw, s')
    | (Abort, s') => (Abort, s')
    end.

Definition get : M Store := fun s => (Ret s, s).
Definition modify (f : Store -> Store) : M unit := fun s => (Ret tt, f s).
Definition lift {A} (o : outcome A) : M A := fun s => (o, s).
(** [assert(false)] *)
Definition assert_false {A} : M A := fun s => (Abort, s).

Declare Scope store_scope.
Delimit Scope store_scope with store.
Notation "x <- c ;; k" := (bind c (fun x => k))
  (at level 61, c at next level, right associativity) : store_scope.
Notation "c ;;; k" := (bind c (fun _ => k))
  (at level 61, right associativity) : store_scope.

Definition NotifyStatusChanged : M unit :=
  modify (fun s => set_nStatusChanged (S (nStatusChanged s)) s).

(** Modelled from the spec: [IsCrypted] of crypter.h, the "Store Mode
    flag". *)
Definition IsCrypted (s : Store) : bool := fUseCrypto s.

(** Modelled from the spec: [IsLocked] of crypter.h, encrypted mode with
    "no master key held" (the master key is "absent (cleared) while
    locked"). *)
Definition IsLocked (s : Store) : bool :=
  if negb (IsCrypted s) then false else match vMasterKey s with [] => true | _ :: _ => false end.

(** *** The scan of [Unlock]

    [keyPass] and [keyFail] are the two locals of [Unlock]; [tried] is a
    ghost record of the decryptions attempted so far, in order: the key of
    the map entry and what the decryption returned. *)
Record ScanFlags : Type := mkScan {
  keyPass : bool;
  keyFail : bool;
  tried : list (bytes * bool)
}.

Definition scan_start : ScanFlags := mkScan false false [].

(** One [for] loop of [Unlock] over the entries of a map:
<<
    if (!Decrypt...(vMasterKeyIn, ...)) { keyFail = true; break; }
    keyPass = true;
    if (fDecryptionThoroughlyChecked) break;
>> *)
Fixpoint scan {E : Type} (decrypt : bytes * E -> outcome bool)
    (fChecked : bool) (entries : list (bytes * E)) (st : ScanFlags)
  : outcome ScanFlags :=
  match entries with
  | [] => Ret st
  | e :: rest =>
      (ok <- decrypt e ;;
       if negb ok
       then Ret (mkScan (keyPass st) true (tried st ++ [(fst e, false)]))
       else
         let st := mkScan true (keyFail st) (tried st ++ [(fst e, true)]) in
         if fChecked then Ret st else scan decrypt fChecked rest st)%outcome
  end.

(** The two flags say what the attempts recorded in [tried] returned. *)
Definition flags_match (st : ScanFlags) : Prop :=
  keyPass st = existsb (fun a => snd a) (tried st) /\
  keyFail st = existsb (fun a => negb (snd a)) (tried st).

(** A member function keeps a property of the store, whatever its outcome. *)
Definition preserves {A : Type} (P : Store -> Prop) (m : M A) : Prop :=
  forall s, P s -> P (snd (m s)).

(** A ciphertext that holds at least the authentication tag (and whose
    length fits the [int] of [Decrypt]); the ciphertexts that
    [EncryptSecret] produces are of this kind, the ones handed to
    [AddCryptedKey] need not be. *)
Definition well_sized (ct : bytes) : Prop :=
  crypto_secretbox_MACBYTES <= Z.of_nat (length ct) <= INT_MAX.

Definition ciphertexts_well_sized (s : Store) : Prop :=
  Forall (fun mi => well_sized (snd (snd mi))) (mapCryptedKeys s) /\
  Forall (fun skmi => well_sized (snd skmi)) (mapCryptedSpendingKeys s).

(** A property of the store that none of the assignments made by the
    member functions breaks; the two flags are only ever assigned [true]. *)
Definition stable (P : Store -> Prop) : Prop :=
  forall s, P s ->
    P (set_fUseCrypto true s) /\
    P (set_fDecryptionThoroughlyChecked true s) /\
    (forall v, P (set_mapKeys v s)) /\
    (forall v, P (set_mapSpendingKeys v s)) /\
    (forall v, P (set_mapNoteDecryptors v s)) /\
    (forall v, P (set_mapCryptedKeys v s)) /\
    (forall v, P (set_mapCryptedSpendingKeys v s)) /\
    (forall v, P (set_vMasterKey v s)) /\
    (forall v, P (set_nStatusChanged v s)).

Section Operations.
Context `{Collaborators}.
Local Open Scope store_scope.

(** Modelled from the spec: [CBasicKeyStore::AddKeyPubKey] of keystore.cpp,
    which the plain mode delegates to: "insert directly into the plaintext
    map". *)
Definition CBasicKeyStore_AddKeyPubKey (key : CKey) (pubkey : CPubKey) : M bool :=
  modify (fun s => set_mapKeys (map_assign (PubKey_GetID pubkey) key (mapKeys s)) s) ;;;
  ret true.

(** Modelled from the spec: [CBasicKeyStore::GetKey] of keystore.cpp,
    "direct lookup in plaintext map; NotFound if absent". *)
Definition CBasicKeyStore_GetKey (address : CKeyID) (keyOut : CKey)
  : M (bool * CKey) :=
  s <- get ;;
  match map_find address (mapKeys s) with
  | Some key => ret (true, key)
  | None => ret (false, keyOut)
  end.

(** Modelled from the spec: [CKeyStore::GetPubKey] of keystore.cpp, the
    public key "from the ... plain record". *)
Definition CKeyStore_GetPubKey (address : CKeyID) (vchPubKeyOut : CPubKey)
  : M (bool * CPubKey) :=
  s <- get ;;
  match map_find address (mapKeys s) with
  | Some key => ret (true, CKey_GetPubKey key)
  | None => ret (false, vchPubKeyOut)
  end.

(** Modelled from the spec: [CBasicKeyStore::AddSpendingKey] of
    keystore.cpp, "insert directly into the plaintext map", the viewing-key
    decryptor being cached "at insertion time". *)
Definition CBasicKeyStore_AddSpendingKey (sk : SpendingKey) : M bool :=
  let address := SpendingKey_address sk in
  modify (fun s => set_mapSpendingKeys (map_assign address sk (mapSpendingKeys s)) s) ;;;
  modify (fun s => set_mapNoteDecryptors
                     (map_insert address (SpendingKey_viewing_key sk)
                        (mapNoteDecryptors s)) s) ;;;
  ret true.

(** Modelled from the spec: [CBasicKeyStore::GetSpendingKey] of
    keystore.cpp, "direct lookup in plaintext map; NotFound if absent". *)
Definition CBasicKeyStore_GetSpendingKey (address : PaymentAddress)
    (skOut : SpendingKey) : M (bool * SpendingKey) :=
  s <- get ;;
  match map_find address (mapSpendingKeys s) with
  | Some sk => ret (true, sk)
  | None => ret (false, skOut)
  end.

(** [bool CCryptoKeyStore::SetCrypted()] *)
Definition SetCrypted : M bool :=
  s <- get ;;
  if fUseCrypto s then ret true
  else if negb (map_empty (mapKeys s) && map_empty (mapSpendingKeys s))
  then ret false
  else modify (set_fUseCrypto true) ;;; ret true.

(** [bool CCryptoKeyStore::Lock()] *)
Definition Lock : M bool :=
  ok <- SetCrypted ;;
  if negb ok then ret false
  else
    modify (set_vMasterKey []) ;;;
    NotifyStatusChanged ;;;
    ret true.

(** The two loops of [Unlock], the second starting from the flags the
    first one leaves. *)
Definition Unlock_scan (s : Store) (vMasterKeyIn : CKeyingMaterial)
  : outcome ScanFlags :=
  (st <- scan (fun mi =>
                 let vchPubKey := fst (snd mi) in
                 let vchCryptedSecret := snd (snd mi) in
                 r <- DecryptKey vMasterKeyIn vchCryptedSecret vchPubKey CKey_new ;;
                 Ret (fst r))
         (fDecryptionThoroughlyChecked s) (mapCryptedKeys s) scan_start ;;
   scan (fun skmi =>
           let address := fst skmi in
           let vchCryptedSecret := snd skmi in
           r <- DecryptSpendingKey vMasterKeyIn vchCryptedSecret address [] ;;
           Ret (fst r))
     (fDecryptionThoroughlyChecked s) (mapCryptedSpendingKeys s) st)%outcome.

(** [bool CCryptoKeyStore::Unlock(vMasterKeyIn)] *)
Definition Unlock (vMasterKeyIn : CKeyingMaterial) : M bool :=
  ok <- SetCrypted ;;
  if negb ok then ret false
  else
    s <- get ;;
    st <- lift (Unlock_scan s vMasterKeyIn) ;;
    (if keyPass st && keyFail st then assert_false else ret tt) ;;;
    if keyFail st || negb (keyPass st) then ret false
    else
      modify (set_vMasterKey vMasterKeyIn) ;;;
      modify (set_fDecryptionThoroughlyChecked true) ;;;
      NotifyStatusChanged ;;;
      ret true.

(** [bool CCryptoKeyStore::AddCryptedKey(vchPubKey, vchCryptedSecret)] *)
Definition AddCryptedKey (vchPubKey : CPubKey) (vchCryptedSecret : bytes)
  : M bool :=
  ok <- SetCrypted ;;
  if negb ok then ret false
  else
    modify (fun s => set_mapCryptedKeys
                       (map_assign (PubKey_GetID vchPubKey)
                          (vchPubKey, vchCryptedSecret) (mapCryptedKeys s)) s) ;;;
    ret true.

(** [bool CCryptoKeyStore::AddKeyPubKey(key, pubkey)] *)
Definition AddKeyPubKey (key : CKey) (pubkey : CPubKey) : M bool :=
  s <- get ;;
  if negb (IsCrypted s) then CBasicKeyStore_AddKeyPubKey key pubkey
  else if IsLocked s then ret false
  else
    let vchSecret := key_secret key in
    r <- lift (EncryptSecret (vMasterKey s) vchSecret (PubKey_GetHash pubkey) []) ;;
    let '(ok, vchCryptedSecret) := r in
    if negb ok then ret false
    else
      ok <- AddCryptedKey pubkey vchCryptedSecret ;;
      if negb ok then ret false else ret true.

(** [bool CCryptoKeyStore::GetKey(address, keyOut&) const] *)
Definition GetKey (address : CKeyID) (keyOut : CKey) : M (bool * CKey) :=
  s <- get ;;
  if negb (IsCrypted s) then CBasicKeyStore_GetKey address keyOut
  else
    match map_find address (mapCryptedKeys s) with
    | Some (vchPubKey, vchCryptedSecret) =>
        lift (DecryptKey (vMasterKey s) vchCryptedSecret vchPubKey keyOut)
    | None => ret (false, keyOut)
    end.

(** [bool CCryptoKeyStore::GetPubKey(address, vchPubKeyOut&) const] *)
Definition GetPubKey (address : CKeyID) (vchPubKeyOut : CPubKey)
  : M (bool * CPubKey) :=
  s <- get ;;
  if negb (IsCrypted s) then CKeyStore_GetPubKey address vchPubKeyOut
  else
    match map_find address (mapCryptedKeys s) with
    | Some (vchPubKey, _) => ret (true, vchPubKey)
    | None => ret (false, vchPubKeyOut)
    end.

(** [bool CCryptoKeyStore::AddCryptedSpendingKey(address, vk,
    vchCryptedSecret)] *)
Definition AddCryptedSpendingKey (address : PaymentAddress) (vk : ViewingKey)
    (vchCryptedSecret : bytes) : M bool :=
  ok <- SetCrypted ;;
  if negb ok then ret false
  else
    modify (fun s => set_mapCryptedSpendingKeys
                       (map_assign address vchCryptedSecret
                          (mapCryptedSpendingKeys s)) s) ;;;
    modify (fun s => set_mapNoteDecryptors
                       (map_insert address vk (mapNoteDecryptors s)) s) ;;;
    ret true.

(** [bool CCryptoKeyStore::AddSpendingKey(sk)] *)
Definition AddSpendingKey (sk : SpendingKey) : M bool :=
  s <- get ;;
  if negb (IsCrypted s) then CBasicKeyStore_AddSpendingKey sk
  else if IsLocked s then ret false
  else
    let vchSecret := SpendingKey_serialize sk in
    let address := SpendingKey_address sk in
    r <- lift (EncryptSecret (vMasterKey s) vchSecret
                 (PaymentAddress_GetHash address) []) ;;
    let '(ok, vchCryptedSecret) := r in
    if negb ok then ret false
    else
      ok <- AddCryptedSpendingKey address (SpendingKey_viewing_key sk)
              vchCryptedSecret ;;
      if negb ok then ret false else ret true.

(** [bool CCryptoKeyStore::GetSpendingKey(address, skOut&) const] *)
Definition GetSpendingKey (address : PaymentAddress) (skOut : SpendingKey)
  : M (bool * SpendingKey) :=
  s <- get ;;
  if negb (IsCrypted s) then CBasicKeyStore_GetSpendingKey address skOut
  else
    match map_find address (mapCryptedSpendingKeys s) with
    | Some vchCryptedSecret =>
        lift (DecryptSpendingKey (vMasterKey s) vchCryptedSecret address skOut)
    | None => ret (false, skOut)
    end.

(** The first [BOOST_FOREACH] of [EncryptKeys], over the entries of
    [mapKeys]; [false] stands for the [return false] inside the loop. *)
Fixpoint EncryptKeys_keys (vMasterKeyIn : CKeyingMaterial)
    (entries : list (CKeyID * CKey)) : M bool :=
  match entries with
  | [] => ret true
  | mKey :: rest =>
      let key := snd mKey in
      let vchPubKey := CKey_GetPubKey key in
      let vchSecret := key_secret key in
      r <- lift (EncryptSecret vMasterKeyIn vchSecret (PubKey_GetHash vchPubKey) []) ;;
      let '(ok, vchCryptedSecret) := r in
      if negb ok then ret false
      else
        ok <- AddCryptedKey vchPubKey vchCryptedSecret ;;
        if negb ok then ret false else EncryptKeys_keys vMasterKeyIn rest
  end.

(** The second [BOOST_FOREACH], over the entries of [mapSpendingKeys]. *)
Fixpoint EncryptKeys_spending (vMasterKeyIn : CKeyingMaterial)
    (entries : list (PaymentAddress * SpendingKey)) : M bool :=
  match entries with
  | [] => ret true
  | mSpendingKey :: rest =>
      let sk := snd mSpendingKey in
      let vchSecret := SpendingKey_serialize sk in
      let address := SpendingKey_address sk in
      r <- lift (EncryptSecret vMasterKeyIn vchSecret
                   (PaymentAddress_GetHash address) []) ;;
      let '(ok, vchCryptedSecret) := r in
      if negb ok then ret false
      else
        ok <- AddCryptedSpendingKey address (SpendingKey_viewing_key sk)
                vchCryptedSecret ;;
        if negb ok then ret false else EncryptKeys_spending vMasterKeyIn rest
  end.

(** [bool CCryptoKeyStore::EncryptKeys(vMasterKeyIn)] *)
Definition EncryptKeys (vMasterKeyIn : CKeyingMaterial) : M bool :=
  s <- get ;;
  if negb (map_empty (mapCryptedKeys s)) || IsCrypted s then ret false
  else
    modify (set_fUseCrypto true) ;;;
    done <- EncryptKeys_keys vMasterKeyIn (mapKeys s) ;;
    if negb done then ret false
    else
      modify (set_mapKeys []) ;;;
      done <- EncryptKeys_spending vMasterKeyIn (mapSpendingKeys s) ;;
      if negb done then ret false
      else
        modify (set_mapSpendingKeys []) ;;;
        ret true.

(** The store after a successful [Unlock] of [store] with [vMasterKeyIn]:
    the key is adopted, the check is remembered, the observers are told. *)
Definition unlocked_with (vMasterKeyIn : CKeyingMaterial) (s : Store) : Store :=
  set_nStatusChanged (S (nStatusChanged s))
    (set_fDecryptionThoroughlyChecked true (set_vMasterKey vMasterKeyIn s)).

(** *** The public operations, as a type *)

Inductive op : Type :=
| OpSetCrypted
| OpLock
| OpUnlock (vMasterKeyIn : CKeyingMaterial)
| OpAddKeyPubKey (key : CKey) (pubkey : CPubKey)
| OpAddCryptedKey (vchPubKey : CPubKey) (vchCryptedSecret : bytes)
| OpGetKey (address : CKeyID)
| OpGetPubKey (address : CKeyID)
| OpAddSpendingKey (sk : SpendingKey)
| OpAddCryptedSpendingKey (address : PaymentAddress) (vk : ViewingKey)
    (vchCryptedSecret : bytes)
| OpGetSpendingKey (address : PaymentAddress)
| OpEncryptKeys (vMasterKeyIn : CKeyingMaterial).

(** The store after an operation (whatever the operation's outcome). *)
Definition run_op (o : op) (s : Store) : Store :=
  match o with
  | OpSetCrypted => snd (SetCrypted s)
  | OpLock => snd (Lock s)
  | OpUnlock mk => snd (Unlock mk s)
  | OpAddKeyPubKey key pubkey => snd (AddKeyPubKey key pubkey s)
  | OpAddCryptedKey pk c => snd (AddCryptedKey pk c s)
  | OpGetKey a => snd (GetKey a CKey_new s)
  | OpGetPubKey a => snd (GetPubKey a [] s)
  | OpAddSpendingKey sk => snd (AddSpendingKey sk s)
  | OpAddCryptedSpendingKey a vk c => snd (AddCryptedSpendingKey a vk c s)
  | OpGetSpendingKey a => snd (GetSpendingKey a [] s)
  | OpEncryptKeys mk => snd (EncryptKeys mk s)
  end.

Definition run_ops (os : list op) (s : Store) : Store :=
  fold_left (fun s o => run_op o s) os s.

End Operations.
End KeyStore.

(** ** A small instance of the collaborators

    Executable stand-ins for the external primitives, to run the
    operations on concrete stores: the ciphertext of the box is a 16-byte
    tag made of key and nonce bytes followed by the message, the hashes pad
    or truncate their input, a public key is a prefix byte followed by the
    secret. *)

Module Sample.
Import Crypter KeyStore.

Definition pad (n : nat) (b : bytes) : bytes := store_at_start (zeros n) b.

Definition box_tag (n k : bytes) : bytes := pad 8 k ++ pad 8 n.

Definition box_easy (m : bytes) (mlen : Z) (n k : bytes) : option bytes :=
  Some (box_tag n k ++ firstn (Z.to_nat mlen) m).

Definition box_open_easy (c : bytes) (clen : Z) (n k : bytes) : option bytes :=
  let c := firstn (Z.to_nat clen) c in
  if (length c <? 16)%nat then None
  else if bytes_eqb (firstn 16 c) (box_tag n k) then Some (skipn 16 c)
  else None.

Definition read_compact_size (b : bytes) : option Z :=
  match b with
  | x :: _ => if (Byte.to_N x <? 253)%N then Some (Z.of_N (Byte.to_N x)) else None
  | [] => None
  end.

#[export] Instance collaborators : Collaborators := {
  WALLET_CRYPTO_SALT_SIZE := 16;
  SerializedSpendingKeySize := 32;
  ReadCompactSize := read_compact_size;
  crypto_pwhash := fun outlen passwd salt _ _ => Some (pad outlen (passwd ++ salt));
  crypto_secretbox_easy := box_easy;
  crypto_secretbox_open_easy := box_open_easy;
  PubKey_GetHash := pad 32;
  PubKey_GetID := pad 20;
  PubKey_IsCompressed := fun pk => (length pk =? 33)%nat;
  secp256k1_pubkey := fun secret compressed =>
    if compressed then x02 :: secret else x04 :: secret ++ secret;
  SpendingKey_serialize := fun sk => sk;
  SpendingKey_unserialize := fun b => b;
  SpendingKey_address := fun sk => rev sk;
  SpendingKey_viewing_key := fun sk => pad 32 (x01 :: sk);
  PaymentAddress_GetHash := pad 32
}.

(** Two master keys and two transparent keys. *)
Definition K : CKeyingMaterial := repeat x11 32.
Definition K2 : CKeyingMaterial := repeat x22 32.

Definition keyA : CKey := mkKey (repeat xa1 32) true.
Definition keyB : CKey := mkKey (repeat xb2 32) true.
Definition pubA : CPubKey := CKey_GetPubKey keyA.
Definition pubB : CPubKey := CKey_GetPubKey keyB.

Definition salt : bytes := repeat x05 16.
Definition passphrase : bytes := [x70; x77].

(** The ciphertext of [key]'s secret under the master key [mk], as
    [AddKeyPubKey] computes it. *)
Definition crypted_secret (mk : CKeyingMaterial) (key : CKey) : bytes :=
  match EncryptSecret mk (key_secret key) (PubKey_GetHash (CKey_GetPubKey key)) [] with
  | Ret (_, c) => c
  | _ => []
  end.

(** A store in encrypted mode holding [keyA] under [K]. *)
Definition store_A : Store :=
  snd (AddCryptedKey pubA (crypted_secret K keyA) Store_new).

(** [store_A] after a successful [Unlock(K)] and a [Lock]. *)
Definition store_A_checked : Store :=
  snd (Lock (snd (Unlock K store_A))).

(** ... to which the record of [keyB], encrypted under the other master
    key [K2], is then added. *)
Definition store_AB_checked : Store :=
  snd (AddCryptedKey pubB (crypted_secret K2 keyB) store_A_checked).

(** The same two records in a store that has never been unlocked. *)
Definition store_AB : Store :=
  snd (AddCryptedKey pubB (crypted_secret K2 keyB) store_A).

(** [store_A] with the record of [keyB] under the same master key [K]. *)
Definition store_AB_K : Store :=
  snd (AddCryptedKey pubB (crypted_secret K keyB) store_A).

(** [store_A] while unlocked with [K]. *)
Definition store_A_unlocked : Store := snd (Unlock K store_A).

(** An empty store switched to encrypted mode. *)
Definition store_empty_crypted : Store := snd (SetCrypted Store_new).

(** A plain store holding [keyA]. *)
Definition store_plain_A : Store :=
  snd (AddKeyPubKey keyA pubA Store_new).

(** The flags and the attempts of the scan of [Unlock(mk)] on [s]. *)
Definition scan_of (s : Store) (mk : CKeyingMaterial) : ScanFlags :=
  match Unlock_scan s mk with
  | Ret st => st
  | _ => scan_start
  end.

(** The cipher set to the master key [K] and the nonce of [keyA]'s record. *)
Definition cipher_A : CCrypter := mkCrypter K (PubKey_GetHash pubA) true.

End Sample.

(** ** What the properties assume of libsodium's box

    The contract of the authenticated encryption ("ciphertext =
    plaintext_len + tag_len; inverse for decrypt"), for a key and a nonce
    buffer of the fixed size: sealing the [mlen] bytes of a message
    succeeds, gives [mlen + crypto_secretbox_MACBYTES] bytes, and opening
    them with the same nonce and key gives the message back. *)
Definition secretbox_contract `{Collaborators} : Prop :=
  forall m n k : bytes,
    length n = WALLET_CRYPTO_KEY_SIZE ->
    length k = WALLET_CRYPTO_KEY_SIZE ->
    exists c,
      crypto_secretbox_easy m (Z.of_nat (length m)) n k = Some c /\
      Z.of_nat (length c) = Z.of_nat (length m) + crypto_secretbox_MACBYTES /\
      crypto_secretbox_open_easy c (Z.of_nat (length c)) n k = Some m.

(** ** What further properties assume of the key types

    A public key derived from a 32-byte secret has the form asked for
    (compressed or not), and a spending key read back from its
    serialization is the spending key. *)
Definition pubkey_form_contract `{Collaborators} : Prop :=
  forall (secret : bytes) (compressed : bool),
    length secret = 32%nat ->
    PubKey_IsCompressed (secp256k1_pubkey secret compressed) = compressed.

Definition spending_key_contract `{Collaborators} : Prop :=
  forall sk : SpendingKey,
    SpendingKey_unserialize (SpendingKey_serialize sk) = sk.

Module KeyStoreNotions.
Import KeyStore.

Section WithCollaborators.
Context `{Collaborators}.

(** Every encrypted record of the store decrypts under [mk]: the two
    decryptions that [Unlock] and the getters run return [true]. *)
Definition records_decrypt (mk : CKeyingMaterial) (s : Store) : Prop :=
  Forall (fun mi =>
            exists key,
              DecryptKey mk (snd (snd mi)) (fst (snd mi)) CKey_new
              = Ret (true, key))
    (mapCryptedKeys s) /\
  Forall (fun skmi =>
            exists sk,
              DecryptSpendingKey mk (snd skmi) (fst skmi) [] = Ret (true, sk))
    (mapCryptedSpendingKeys s).

(** What a store in plain mode does not hold. *)
Definition plain_store_clean (s : Store) : Prop :=
  fUseCrypto s = false ->
  mapCryptedKeys s = [] /\ mapCryptedSpendingKeys s = [] /\
  vMasterKey s = [] /\ fDecryptionThoroughlyChecked s = false /\
  nStatusChanged s = 0%nat.

(** The plaintext keys that [EncryptKeys] can migrate: 32-byte secrets, and
    spending keys whose serialization has the expected size. *)
Definition plain_keys_sized (s : Store) : Prop :=
  Forall (fun mKey => length (key_secret (snd mKey)) = 32%nat) (mapKeys s) /\
  Forall (fun mSk =>
            length (SpendingKey_serialize (snd mSk)) = SerializedSpendingKeySize /\
            Z.of_nat SerializedSpendingKeySize + crypto_secretbox_MACBYTES
            <= INT_MAX)
    (mapSpendingKeys s).

(** The operations that only read. *)
Definition is_getter (o : op) : bool :=
  match o with
  | OpGetKey _ | OpGetPubKey _ | OpGetSpendingKey _ => true
  | _ => false
  end.

Definition is_lock_or_unlock (o : op) : bool :=
  match o with
  | OpLock | OpUnlock _ => true
  | _ => false
  end.

End WithCollaborators.
End KeyStoreNotions.

(** ** Keys of a map in increasing order *)

Fixpoint keys_above (k : bytes) (ks : list bytes) : Prop :=
  match ks with
  | [] => True
  | k' :: r => bytes_ltb k k' = true /\ keys_above k r
  end.

Fixpoint keys_increasing (ks : list bytes) : Prop :=
  match ks with
  | [] => True
  | k :: r => keys_above k r /\ keys_increasing r
  end.

Definition map_sorted {V} (m : std_map V) : Prop :=
  keys_increasing (map fst m).

(** The five maps of a store, each with increasing keys. *)
Definition maps_sorted (s : KeyStore.Store) : Prop :=
  map_sorted (KeyStore.mapKeys s) /\
  map_sorted (KeyStore.mapSpendingKeys s) /\
  map_sorted (KeyStore.mapNoteDecryptors s) /\
  map_sorted (KeyStore.mapCryptedKeys s) /\
  map_sorted (KeyStore.mapCryptedSpendingKeys s).

(** ** More sample values *)

Module SampleMore.
Import Crypter KeyStore Sample.

Definition skS : SpendingKey := repeat x33 32.
Definition addrS : PaymentAddress := SpendingKey_address skS.

(** [store_A_unlocked] after [AddKeyPubKey(keyB)] and [AddSpendingKey(skS)]. *)
Definition store_ABS_unlocked : Store :=
  snd (AddSpendingKey skS (snd (AddKeyPubKey keyB pubB store_A_unlocked))).

(** A plain store holding [keyA], [keyB] and [skS]. *)
Definition store_plain_ABS : Store :=
  snd (AddSpendingKey skS (snd (AddKeyPubKey keyB pubB store_plain_A))).

(** The same store after [EncryptKeys(K)]. *)
Definition store_migrated : Store := snd (EncryptKeys K store_plain_ABS).

(** The ciphertext of [sk] under the master key [mk], as [AddSpendingKey]
    computes it. *)
Definition crypted_spending_secret (mk : CKeyingMaterial) (sk : SpendingKey)
  : bytes :=
  match EncryptSecret mk (SpendingKey_serialize sk)
          (PaymentAddress_GetHash (SpendingKey_address sk)) [] with
  | Ret (_, c) => c
  | _ => []
  end.

(** A master key of the wrong size. *)
Definition K_short : CKeyingMaterial := repeat x11 31.

(** A store in encrypted mode whose only record has an empty ciphertext,
    locked and then holding the master key [K]. *)
Definition store_truncated : Store := snd (AddCryptedKey pubA [] Store_new).
Definition store_truncated_unlocked : Store := set_vMasterKey K store_truncated.

(** Two viewing keys and two ciphertexts for the address of [skS]. *)
Definition vk1 : ViewingKey := repeat x41 32.
Definition vk2 : ViewingKey := repeat x42 32.
Definition ct1 : bytes := repeat x51 48.
Definition ct2 : bytes := repeat x52 48.

(** [store_AB] (record of [keyA] under [K], record of [keyB] under [K2])
    with a spending-key record whose ciphertext is empty. *)
Definition store_AB_short_spending : Store :=
  snd (AddCryptedSpendingKey addrS vk1 [] store_AB).

(** [store_A_unlocked] to which a record for [keyB] with an empty
    ciphertext is added. *)
Definition store_A_unlocked_B_short : Store :=
  snd (AddCryptedKey pubB [] store_A_unlocked).

(** [store_A_unlocked] with a spending-key record whose ciphertext is
    empty. *)
Definition store_S_short : Store :=
  snd (AddCryptedSpendingKey addrS vk1 [] store_A_unlocked).

(** An address that is not the one of [skS], with the secret of [skS]
    encrypted under [K] for that address. *)
Definition addrX : PaymentAddress := repeat x77 32.
Definition ctX : bytes :=
  match EncryptSecret K (SpendingKey_serialize skS)
          (PaymentAddress_GetHash addrX) [] with
  | Ret (_, c) => c
  | _ => []
  end.
Definition store_S_cross : Store :=
  snd (AddCryptedSpendingKey addrX vk1 ctX store_A_unlocked).

(** A keying material of [2^31 - 16] bytes. *)
Definition huge_plaintext : CKeyingMaterial :=
  repeat x00 (Z.to_nat (2 ^ 31 - 16)).

End SampleMore.

(** * Properties *)

(** ** Byte buffers and machine integers *)

Lemma byte_eqb_refl (a : byte) : byte_eqb a a = true.
Proof. unfold byte_eqb. apply N.eqb_refl. Qed.

Lemma byte_eqb_eq (a b : byte) : byte_eqb a b = true <-> a = b.
Proof.
  unfold byte_eqb. rewrite N.eqb_eq. split.
  - intros E.
    assert (Byte.of_N (Byte.to_N a) = Byte.of_N (Byte.to_N b)) as S
      by now rewrite E.
    rewrite !Byte.of_to_N in S. now inversion S.
  - now intros ->.
Qed.

Lemma bytes_eqb_refl (a : bytes) : bytes_eqb a a = true.
Proof.
  induction a as [|x a IH]; simpl; [reflexivity|].
  now rewrite byte_eqb_refl, IH.
Qed.

Lemma bytes_eqb_eq (a b : bytes) : bytes_eqb a b = true <-> a = b.
Proof.
  split; [| intros ->; apply bytes_eqb_refl].
  revert b. induction a as [|x a IH]; intros [|y b]; simpl; try discriminate.
  - reflexivity.
  - rewrite andb_true_iff. intros [E1 E2].
    apply byte_eqb_eq in E1. apply IH in E2. now subst.
Qed.

Lemma zeros_length (n : nat) : length (zeros n) = n.
Proof. apply repeat_length. Qed.

Lemma store_at_start_length (buf out : bytes) :
  length (store_at_start buf out) = length buf.
Proof.
  unfold store_at_start. rewrite length_firstn, length_app, length_skipn. lia.
Qed.

Lemma store_at_start_same_size (buf out : bytes) :
  length out = length buf -> store_at_start buf out = out.
Proof.
  intros E. unfold store_at_start.
  rewrite <- E, skipn_all2 by lia. rewrite app_nil_r. apply firstn_all.
Qed.

Lemma to_int_in_range (z : Z) : - 2 ^ 31 <= z <= INT_MAX -> to_int z = z.
Proof.
  unfold to_int, INT_MAX. intros R.
  rewrite Z.mod_small; lia.
Qed.

Lemma to_ull_nonneg_int (z : Z) : 0 <= z <= INT_MAX -> to_ull z = z.
Proof. unfold to_ull, INT_MAX. intros R. apply Z.mod_small. lia. Qed.

Lemma new_vector_nonneg (n : Z) :
  0 <= n <= INT_MAX -> new_vector n = Ret (zeros (Z.to_nat n)).
Proof.
  unfold new_vector, to_size_t, vector_max_size, INT_MAX. intros R.
  rewrite Z.mod_small by lia.
  destruct (Z.ltb_spec (2 ^ 63 - 1) n); [lia | reflexivity].
Qed.

Lemma new_vector_negative (n : Z) :
  - 2 ^ 31 <= n < 0 -> new_vector n = Throw.
Proof.
  unfold new_vector, to_size_t, vector_max_size. intros R.
  replace (n mod 2 ^ 64) with (n + 2 ^ 64).
  - destruct (Z.ltb_spec (2 ^ 63 - 1) (n + 2 ^ 64)); [reflexivity | lia].
  - apply Z.mod_unique with (q := -1); lia.
Qed.

(** ** The cipher *)

Section CrypterProperties.
Context `{Collaborators}.
Import Crypter.

Lemma SetKey_fixed_sizes (c : CCrypter) (key iv : bytes) :
  length key = WALLET_CRYPTO_KEY_SIZE ->
  length iv = WALLET_CRYPTO_KEY_SIZE ->
  SetKey c key iv = (true, mkCrypter key iv true).
Proof.
  intros Ek Ei. unfold SetKey.
  rewrite (firstn_all2 key), (firstn_all2 iv) by lia.
  now rewrite Ek, Ei, Nat.eqb_refl.
Qed.

Lemma SetKey_wrong_size (c : CCrypter) (key iv : bytes) :
  length key <> WALLET_CRYPTO_KEY_SIZE -> SetKey c key iv = (false, c).
Proof.
  intros Ek. unfold SetKey.
  destruct (Nat.eqb_spec (length key) WALLET_CRYPTO_KEY_SIZE); [contradiction|].
  reflexivity.
Qed.

Lemma iv_of_uint256_length (nIV : uint256) :
  length (iv_of_uint256 nIV) = WALLET_CRYPTO_KEY_SIZE.
Proof. unfold iv_of_uint256. now rewrite store_at_start_length, zeros_length. Qed.

Lemma iv_of_uint256_fixed_size (nIV : uint256) :
  length nIV = WALLET_CRYPTO_KEY_SIZE -> iv_of_uint256 nIV = nIV.
Proof.
  intros E. apply store_at_start_same_size. now rewrite zeros_length.
Qed.

(** C1, what the code does: called with at least one round, a salt of the
    fixed size and a derivation method other than 0, [SetKeyFromPassphrase]
    skips the derivation, returns [true] and sets [fKeySet]; the key and the
    IV are left as they were.  The specification asks for a failure that
    leaves the cipher not ready. *)
Theorem SetKeyFromPassphrase_other_method_accepted
    (c : CCrypter) (strKeyData chSalt : bytes) (nRounds nDerivationMethod : N)
    (vchOtherDerivationParameters : bytes) :
  (1 <= nRounds)%N ->
  length chSalt = WALLET_CRYPTO_SALT_SIZE ->
  nDerivationMethod <> 0%N ->
  SetKeyFromPassphrase c strKeyData chSalt nRounds nDerivationMethod
    vchOtherDerivationParameters
  = (true, mkCrypter (chKey c) (chIV c) true).
Proof.
  intros Hr Hs Hm. unfold SetKeyFromPassphrase.
  destruct (N.ltb_spec nRounds 1) as [L|_]; [lia|].
  rewrite Hs, Nat.eqb_refl. simpl.
  destruct (N.eqb_spec nDerivationMethod 0) as [E|_]; [contradiction|].
  reflexivity.
Qed.

(** C4: with the cipher ready and a ciphertext whose length fits an [int],
    a ciphertext shorter than the authentication tag makes [Decrypt] throw
    from the construction of the plaintext buffer with a negative length,
    where the specification asks for a returned failure; and whenever [Decrypt]
    returns [true] the ciphertext has at least the tag length and the
    plaintext has exactly the ciphertext length minus the tag length. *)
Theorem Decrypt_lengths (c : CCrypter) (vchCiphertext : bytes)
    (vchPlaintext : CKeyingMaterial) :
  fKeySet c = true ->
  Z.of_nat (length vchCiphertext) <= INT_MAX ->
  (Z.of_nat (length vchCiphertext) < crypto_secretbox_MACBYTES ->
   Decrypt c vchCiphertext vchPlaintext = Throw) /\
  (forall out, Decrypt c vchCiphertext vchPlaintext = Ret (true, out) ->
     crypto_secretbox_MACBYTES <= Z.of_nat (length vchCiphertext) /\
     Z.of_nat (length out)
     = Z.of_nat (length vchCiphertext) - crypto_secretbox_MACBYTES).
Proof.
  intros Hset Hlen. unfold Decrypt. rewrite Hset. simpl negb. cbv iota.
  unfold crypto_secretbox_MACBYTES, INT_MAX in *.
  rewrite (to_int_in_range (Z.of_nat _)) by (unfold INT_MAX; lia).
  rewrite to_int_in_range by (unfold INT_MAX; lia).
  split.
  - intros Hshort. rewrite new_vector_negative by lia. reflexivity.
  - intros out.
    destruct (Z.lt_ge_cases (Z.of_nat (length vchCiphertext)) 16) as [S|L].
    + rewrite new_vector_negative by lia. discriminate.
    + rewrite new_vector_nonneg by (unfold INT_MAX; lia). simpl.
      destruct (crypto_secretbox_open_easy _ _ _ _); intros E; inversion E.
      split; [exact L|].
      rewrite store_at_start_length, zeros_length. lia.
Qed.

(** With the cipher not ready, [Decrypt] and [Encrypt] return [false] and
    leave the output buffer alone. *)
Lemma Decrypt_not_ready (c : CCrypter) (ct pt : bytes) :
  fKeySet c = false -> Decrypt c ct pt = Ret (false, pt).
Proof. intros E. unfold Decrypt. now rewrite E. Qed.

Lemma Encrypt_not_ready (c : CCrypter) (pt ct : bytes) :
  fKeySet c = false -> Encrypt c pt ct = Ret (false, ct).
Proof. intros E. unfold Encrypt. now rewrite E. Qed.

Lemma Encrypt_Decrypt_ready (key iv m ct0 pt0 : bytes) :
  secretbox_contract ->
  length key = WALLET_CRYPTO_KEY_SIZE ->
  length iv = WALLET_CRYPTO_KEY_SIZE ->
  Z.of_nat (length m) + crypto_secretbox_MACBYTES <= INT_MAX ->
  exists ct,
    Encrypt (mkCrypter key iv true) m ct0 = Ret (true, ct) /\
    Z.of_nat (length ct) = Z.of_nat (length m) + crypto_secretbox_MACBYTES /\
    Decrypt (mkCrypter key iv true) ct pt0 = Ret (true, m).
Proof.
  intros Law Ek Ei Hm.
  destruct (Law m iv key Ei Ek) as (ct & Eseal & Elen & Eopen).
  exists ct. unfold crypto_secretbox_MACBYTES, INT_MAX in *.
  assert (Encrypt (mkCrypter key iv true) m ct0 = Ret (true, ct)) as EE.
  { unfold Encrypt. simpl.
    rewrite (to_int_in_range (Z.of_nat _)) by (unfold INT_MAX; lia).
    unfold crypto_secretbox_MACBYTES.
    rewrite to_int_in_range by (unfold INT_MAX; lia).
    rewrite new_vector_nonneg by (unfold INT_MAX; lia).
    rewrite to_ull_nonneg_int by (unfold INT_MAX; lia).
    simpl. rewrite Eseal.
    rewrite store_at_start_same_size; [reflexivity|].
    rewrite zeros_length. lia. }
  split; [exact EE|]. split; [exact Elen|].
  unfold Decrypt. simpl.
  rewrite (to_int_in_range (Z.of_nat _)) by (unfold INT_MAX; lia).
  unfold crypto_secretbox_MACBYTES.
  rewrite to_int_in_range by (unfold INT_MAX; lia).
  rewrite new_vector_nonneg by (unfold INT_MAX; lia).
  rewrite to_ull_nonneg_int by (unfold INT_MAX; lia).
  simpl. rewrite Eopen.
  rewrite store_at_start_same_size; [reflexivity|].
  rewrite zeros_length. lia.
Qed.


(** Beyond the range of the [int] that holds the ciphertext length, the
    construction of the ciphertext buffer throws. *)
Lemma Encrypt_beyond_int_throws (c : CCrypter) (m ct0 : bytes) :
  fKeySet c = true ->
  INT_MAX - crypto_secretbox_MACBYTES < Z.of_nat (length m) <= INT_MAX ->
  Encrypt c m ct0 = Throw.
Proof.
  intros Hset R. unfold Encrypt. rewrite Hset. simpl negb. cbv iota.
  unfold crypto_secretbox_MACBYTES, INT_MAX in *.
  rewrite (to_int_in_range (Z.of_nat _)) by (unfold INT_MAX; lia).
  assert (to_int (Z.of_nat (length m) + 16)
          = Z.of_nat (length m) + 16 - 2 ^ 32) as W.
  { unfold to_int.
    replace ((Z.of_nat (length m) + 16 + 2 ^ 31) mod 2 ^ 32)
      with (Z.of_nat (length m) + 16 + 2 ^ 31 - 2 ^ 32); [lia|].
    apply Z.mod_unique with (q := 1); lia. }
  rewrite W. now rewrite new_vector_negative by lia.
Qed.

(** [EncryptSecret] and [DecryptSecret] do not depend on what the arrays of
    the freshly constructed cipher hold: [SetKey] either refuses or writes
    both. *)
Lemma secrets_ignore_initial_arrays (k0 iv0 mk data : bytes) (nIV : uint256)
    (out : bytes) :
  (let '(ok, c) := SetKey (mkCrypter k0 iv0 false) mk (iv_of_uint256 nIV) in
   if negb ok then Ret (false, out) else Encrypt c data out)
  = EncryptSecret mk data nIV out /\
  (let '(ok, c) := SetKey (mkCrypter k0 iv0 false) mk (iv_of_uint256 nIV) in
   if negb ok then Ret (false, out) else Decrypt c data out)
  = DecryptSecret mk data nIV out.
Proof.
  unfold EncryptSecret, DecryptSecret.
  destruct (Nat.eq_dec (length mk) WALLET_CRYPTO_KEY_SIZE) as [E|N].
  - rewrite !(SetKey_fixed_sizes _ mk _ E (iv_of_uint256_length nIV)).
    now split.
  - rewrite !(SetKey_wrong_size _ mk _ N). now split.
Qed.

End CrypterProperties.

(** ** The key store *)

Module KeyStoreProperties.
Import KeyStore.

Lemma preserves_ret {A} (P : Store -> Prop) (a : A) : preserves P (ret a).
Proof. intros s Hs. exact Hs. Qed.

Lemma preserves_get (P : Store -> Prop) : preserves P get.
Proof. intros s Hs. exact Hs. Qed.

Lemma preserves_lift {A} (P : Store -> Prop) (o : outcome A) :
  preserves P (lift o).
Proof. intros s Hs. exact Hs. Qed.

Lemma preserves_assert_false {A} (P : Store -> Prop) :
  preserves P (@assert_false A).
Proof. intros s Hs. exact Hs. Qed.

Lemma preserves_modify (P : Store -> Prop) (f : Store -> Store) :
  (forall s, P s -> P (f s)) -> preserves P (modify f).
Proof. intros Hf s Hs. now apply Hf. Qed.

Lemma preserves_bind {A B} (P : Store -> Prop) (m : M A) (k : A -> M B) :
  preserves P m -> (forall a, preserves P (k a)) -> preserves P (bind m k).
Proof.
  intros Hm Hk s Hs. unfold bind.
  specialize (Hm s Hs). destruct (m s) as [[a| |] s']; simpl in *; auto.
  now apply Hk.
Qed.

Create HintDb store discriminated.
#[export] Hint Resolve preserves_ret preserves_get preserves_lift
  preserves_assert_false : store.

Lemma preserves_modify_stable (P : Store -> Prop) (f : Store -> Store) :
  stable P ->
  (forall s, f s = set_fUseCrypto true s
          \/ f s = set_fDecryptionThoroughlyChecked true s
          \/ (exists v, f s = set_mapKeys v s)
          \/ (exists v, f s = set_mapSpendingKeys v s)
          \/ (exists v, f s = set_mapNoteDecryptors v s)
          \/ (exists v, f s = set_mapCryptedKeys v s)
          \/ (exists v, f s = set_mapCryptedSpendingKeys v s)
          \/ (exists v, f s = set_vMasterKey v s)
          \/ (exists v, f s = set_nStatusChanged v s)) ->
  preserves P (modify f).
Proof.
  intros St Hf. apply preserves_modify. intros s Hs.
  destruct (St s Hs) as (S1 & S2 & S3 & S4 & S5 & S6 & S7 & S8 & S9).
  destruct (Hf s) as [E|[E|[[v E]|[[v E]|[[v E]|[[v E]|[[v E]|[[v E]|[v E]]]]]]]]];
    rewrite E; auto.
Qed.

(** One step through the body of a member function; [on_modify] deals
    with the assignments. *)
Ltac preserve_step on_modify :=
  lazymatch goal with
  | |- preserves _ (bind _ _) => apply preserves_bind; [| intros ?]
  | |- preserves _ (modify _) => on_modify
  | |- preserves _ (if ?b then _ else _) => destruct b
  | |- preserves _ (match ?x with _ => _ end) => destruct x
  | |- preserves _ _ => solve [auto with store]
  end.

(** For a stable property [St]. *)
Ltac preserve St :=
  repeat (preserve_step
            ltac:(apply (preserves_modify_stable _ _ St); intros ?;
                  solve [ eauto 12 ])).

(** For a property that the assignments at hand keep by computation. *)
Ltac preserve_field :=
  repeat (preserve_step
            ltac:(apply preserves_modify; intros ? ?; simpl; assumption)).

Section WithCollaborators.
Context `{Collaborators}.

(** *** [SetCrypted] *)

Lemma SetCrypted_crypted (s : Store) :
  fUseCrypto s = true -> SetCrypted s = (Ret true, s).
Proof. intros E. unfold SetCrypted, bind, get. now rewrite E. Qed.

Lemma SetCrypted_plain_empty (s : Store) :
  fUseCrypto s = false -> mapKeys s = [] -> mapSpendingKeys s = [] ->
  SetCrypted s = (Ret true, set_fUseCrypto true s).
Proof.
  intros E E1 E2. unfold SetCrypted, bind, get. now rewrite E, E1, E2.
Qed.

Lemma SetCrypted_plain_nonempty (s : Store) :
  fUseCrypto s = false -> mapKeys s <> [] \/ mapSpendingKeys s <> [] ->
  SetCrypted s = (Ret false, s).
Proof.
  intros E N. unfold SetCrypted, bind, get. rewrite E.
  destruct (mapKeys s), (mapSpendingKeys s); simpl; try reflexivity.
  now destruct N.
Qed.

(** [SetCrypted] always returns, and when it returns [true] the store it
    leaves is in encrypted mode and differs from [s] by the mode flag at
    most. *)
Lemma SetCrypted_cases (s : Store) :
  SetCrypted s = (Ret false, s) /\ fUseCrypto s = false \/
  SetCrypted s = (Ret true, set_fUseCrypto true s).
Proof.
  destruct (fUseCrypto s) eqn:E.
  - right. rewrite (SetCrypted_crypted s E). f_equal.
    destruct s; simpl in *; now subst.
  - destruct (mapKeys s) eqn:E1; [destruct (mapSpendingKeys s) eqn:E2|].
    + right. now apply SetCrypted_plain_empty.
    + left. split; [|reflexivity].
      apply SetCrypted_plain_nonempty; [assumption|]. right. congruence.
    + left. split; [|reflexivity].
      apply SetCrypted_plain_nonempty; [assumption|]. left. congruence.
Qed.


(** *** The scan of [Unlock] *)

Lemma scan_flags_match {E} (decrypt : bytes * E -> outcome bool) (fChecked : bool)
    (entries : list (bytes * E)) :
  forall st st', flags_match st ->
    scan decrypt fChecked entries st = Ret st' -> flags_match st'.
Proof.
  induction entries as [|e rest IH]; simpl; intros st st' F R.
  - now inversion R; subst.
  - destruct (decrypt e) as [[|]| |]; simpl in R; try discriminate.
    + assert (flags_match (mkScan true (keyFail st) (tried st ++ [(fst e, true)])))
        as F'.
      { destruct F as [F1 F2]. split; simpl; rewrite existsb_app; simpl.
        - now rewrite orb_true_r.
        - now rewrite orb_false_r. }
      destruct fChecked; [now inversion R; subst | eauto].
    + inversion R; subst. destruct F as [F1 F2].
      split; simpl; rewrite existsb_app; simpl.
      * now rewrite orb_false_r.
      * now rewrite orb_true_r.
Qed.

(** Once the spot check is on, a loop attempts the first entry only. *)
Lemma scan_checked_first_only {E} (decrypt : bytes * E -> outcome bool)
    (entries : list (bytes * E)) (st st' : ScanFlags) :
  scan decrypt true entries st = Ret st' ->
  map fst (tried st') = map fst (tried st) ++ map fst (firstn 1 entries).
Proof.
  destruct entries as [|e rest]; simpl; intros R.
  - inversion R; subst. now rewrite app_nil_r.
  - destruct (decrypt e) as [[|]| |]; simpl in R; try discriminate;
      inversion R; subst; simpl; now rewrite map_app.
Qed.

(** A loop never clears [keyFail]. *)
Lemma scan_keyFail_kept {E} (decrypt : bytes * E -> outcome bool) (fChecked : bool)
    (entries : list (bytes * E)) :
  forall st st', scan decrypt fChecked entries st = Ret st' ->
    keyFail st = true -> keyFail st' = true.
Proof.
  induction entries as [|e rest IH]; simpl; intros st st' R F.
  - now inversion R; subst.
  - destruct (decrypt e) as [[|]| |]; simpl in R; try discriminate.
    + destruct fChecked; [now inversion R; subst|].
      apply (IH _ _ R). exact F.
    + now inversion R; subst.
Qed.

(** While the spot check is off, a loop that meets no failure attempts
    every entry, in order. *)
Lemma scan_unchecked_all {E} (decrypt : bytes * E -> outcome bool)
    (entries : list (bytes * E)) :
  forall st st', scan decrypt false entries st = Ret st' ->
    keyFail st' = false ->
    tried st' = tried st ++ map (fun e => (fst e, true)) entries.
Proof.
  induction entries as [|e rest IH]; simpl; intros st st' R F.
  - inversion R; subst. now rewrite app_nil_r.
  - destruct (decrypt e) as [[|]| |]; simpl in R; try discriminate.
    + rewrite (IH _ _ R F). simpl. now rewrite <- app_assoc.
    + inversion R; subst. discriminate.
Qed.

(** A loop returns when each decryption it can attempt returns. *)
Lemma scan_returns {E} (decrypt : bytes * E -> outcome bool) (fChecked : bool)
    (entries : list (bytes * E)) :
  Forall (fun e => exists b, decrypt e = Ret b) entries ->
  forall st, exists st', scan decrypt fChecked entries st = Ret st'.
Proof.
  induction 1 as [|e rest [b D] _ IH]; simpl; intros st.
  - now exists st.
  - rewrite D. simpl. destruct b; simpl; [|eauto].
    destruct fChecked; eauto.
Qed.

Lemma Decrypt_returns (c : Crypter.CCrypter) (ct pt : bytes) :
  well_sized ct -> exists r, Crypter.Decrypt c ct pt = Ret r.
Proof.
  intros [Lo Hi]. unfold Crypter.Decrypt.
  destruct (Crypter.fKeySet c); simpl; [|eauto].
  unfold crypto_secretbox_MACBYTES, INT_MAX in *.
  rewrite (to_int_in_range (Z.of_nat _)) by (unfold INT_MAX; lia).
  rewrite to_int_in_range by (unfold INT_MAX; lia).
  rewrite new_vector_nonneg by (unfold INT_MAX; lia). simpl.
  destruct (crypto_secretbox_open_easy _ _ _ _); eauto.
Qed.

Lemma DecryptSecret_returns (mk ct : bytes) (nIV : uint256) (pt : bytes) :
  well_sized ct -> exists r, DecryptSecret mk ct nIV pt = Ret r.
Proof.
  intros W. unfold DecryptSecret.
  destruct (Crypter.SetKey _ _ _) as [[|] c]; simpl; [|eauto].
  now apply Decrypt_returns.
Qed.

Lemma DecryptKey_returns (mk ct : bytes) (pk : CPubKey) (key : CKey) :
  well_sized ct -> exists r, DecryptKey mk ct pk key = Ret r.
Proof.
  intros W. unfold DecryptKey.
  destruct (DecryptSecret_returns mk ct (PubKey_GetHash pk) [] W) as [[ok sec] D].
  rewrite D. simpl. destruct ok; simpl; [|eauto].
  destruct (negb _); eauto.
Qed.

Lemma DecryptSpendingKey_returns (mk ct : bytes) (a : PaymentAddress)
    (sk : SpendingKey) :
  well_sized ct -> exists r, DecryptSpendingKey mk ct a sk = Ret r.
Proof.
  intros W. unfold DecryptSpendingKey.
  destruct (DecryptSecret_returns mk ct (PaymentAddress_GetHash a) [] W)
    as [[ok sec] D].
  rewrite D. simpl. destruct ok; simpl; [|eauto].
  destruct (negb _); eauto.
Qed.

(** On a store whose ciphertexts are well sized the scan of [Unlock]
    returns: no decryption throws. *)
Lemma Unlock_scan_returns (s : Store) (mk : CKeyingMaterial) :
  ciphertexts_well_sized s -> exists st, Unlock_scan s mk = Ret st.
Proof.
  intros [W1 W2]. unfold Unlock_scan.
  match goal with
  | |- exists st, obind (scan ?d ?c ?l ?i) _ = _ =>
      destruct (scan_returns d c l) with (st := i) as [st1 R1]
  end.
  { eapply Forall_impl; [| exact W1]. intros [k [pk ct]] W. simpl in *.
    destruct (DecryptKey_returns mk ct pk CKey_new W) as [r D].
    rewrite D. simpl. eauto. }
  rewrite R1. simpl. apply scan_returns.
  eapply Forall_impl; [| exact W2]. intros [a ct] W. simpl in *.
  destruct (DecryptSpendingKey_returns mk ct a [] W) as [r D].
  rewrite D. simpl. eauto.
Qed.

Lemma Unlock_scan_flags_match (s : Store) (mk : CKeyingMaterial) (st : ScanFlags) :
  Unlock_scan s mk = Ret st -> flags_match st.
Proof.
  unfold Unlock_scan. intros R.
  match type of R with obind ?first _ = _ => destruct first as [st1| |] eqn:R1 end;
    simpl in R; try discriminate.
  eapply scan_flags_match; [| exact R].
  eapply scan_flags_match; [| exact R1].
  split; reflexivity.
Qed.

(** The scan reads the two encrypted maps and the check flag only. *)
Lemma Unlock_scan_mode_flag (s : Store) (b : bool) (mk : CKeyingMaterial) :
  Unlock_scan (set_fUseCrypto b s) mk = Unlock_scan s mk.
Proof. reflexivity. Qed.

(** *** [Unlock], by the outcome of [SetCrypted] and of the scan *)

Lemma Unlock_not_crypted (s : Store) (mk : CKeyingMaterial) :
  SetCrypted s = (Ret false, s) -> Unlock mk s = (Ret false, s).
Proof. intros E. unfold Unlock, bind. now rewrite E. Qed.

Lemma Unlock_decision (s s' : Store) (mk : CKeyingMaterial) (st : ScanFlags) :
  SetCrypted s = (Ret true, s') ->
  Unlock_scan s' mk = Ret st ->
  Unlock mk s =
    if keyPass st && keyFail st then (Abort, s')
    else if keyFail st || negb (keyPass st) then (Ret false, s')
    else (Ret true, unlocked_with mk s').
Proof.
  intros E R. unfold Unlock, bind. rewrite E. simpl.
  unfold lift. rewrite R.
  destruct (keyPass st), (keyFail st); reflexivity.
Qed.

Lemma Unlock_scan_throws (s s' : Store) (mk : CKeyingMaterial) :
  SetCrypted s = (Ret true, s') ->
  Unlock_scan s' mk = Throw ->
  Unlock mk s = (Throw, s').
Proof.
  intros E R. unfold Unlock, bind. rewrite E. simpl.
  unfold lift. now rewrite R.
Qed.

(** *** Ciphertexts shorter than the tag *)

Lemma Decrypt_short_throws (c : Crypter.CCrypter) (ct pt : bytes) :
  Crypter.fKeySet c = true ->
  Z.of_nat (length ct) < crypto_secretbox_MACBYTES ->
  Crypter.Decrypt c ct pt = Throw.
Proof.
  intros R S. unfold Crypter.Decrypt. rewrite R. simpl negb. cbv iota.
  unfold crypto_secretbox_MACBYTES in *.
  rewrite (to_int_in_range (Z.of_nat _)) by (unfold INT_MAX; lia).
  rewrite to_int_in_range by (unfold INT_MAX; lia).
  now rewrite new_vector_negative by lia.
Qed.

Lemma DecryptSecret_short_throws (mk ct : bytes) (nIV : uint256) (pt : bytes) :
  length mk = WALLET_CRYPTO_KEY_SIZE ->
  Z.of_nat (length ct) < crypto_secretbox_MACBYTES ->
  DecryptSecret mk ct nIV pt = Throw.
Proof.
  intros Hk S. unfold DecryptSecret.
  rewrite (SetKey_fixed_sizes _ mk _ Hk (iv_of_uint256_length nIV)).
  simpl negb. cbv iota. now apply Decrypt_short_throws.
Qed.

(** C3: when [Unlock] gets past [SetCrypted], every decryption its two
    loops attempt returns and, among them (over the transparent-key map and
    the spending-key map together), one returns success and one returns
    failure, [Unlock] ends in [assert(false)]: it does not return, the
    master key of the store is not replaced, the check flag is not set and
    no notification is sent; the scan returns its attempts whenever the
    stored ciphertexts are well sized.  What the code does otherwise: when
    the check flag is unset, the first transparent-key record decrypts, the
    second fails, and the first spending-key record has a ciphertext shorter
    than the authentication tag, the second loop throws for a candidate key
    of the fixed size and [Unlock] is left by the exception, with the master
    key not replaced, without reaching [assert(false)], where the
    specification asks for the abort. *)
Theorem Unlock_mixed_results_abort (s : Store) (mk : CKeyingMaterial) :
  fst (SetCrypted s) = Ret true ->
  (forall st k1 k2,
     Unlock_scan s mk = Ret st ->
     In (k1, true) (tried st) ->
     In (k2, false) (tried st) ->
     fst (Unlock mk s) = Abort /\
     vMasterKey (snd (Unlock mk s)) = vMasterKey s /\
     fDecryptionThoroughlyChecked (snd (Unlock mk s))
     = fDecryptionThoroughlyChecked s /\
     nStatusChanged (snd (Unlock mk s)) = nStatusChanged s) /\
  (ciphertexts_well_sized s -> exists st, Unlock_scan s mk = Ret st) /\
  (forall idA pkA ctA kA idB pkB ctB kB rest a ct rest',
     fDecryptionThoroughlyChecked s = false ->
     mapCryptedKeys s = (idA, (pkA, ctA)) :: (idB, (pkB, ctB)) :: rest ->
     DecryptKey mk ctA pkA CKey_new = Ret (true, kA) ->
     DecryptKey mk ctB pkB CKey_new = Ret (false, kB) ->
     mapCryptedSpendingKeys s = (a, ct) :: rest' ->
     Z.of_nat (length ct) < crypto_secretbox_MACBYTES ->
     length mk = WALLET_CRYPTO_KEY_SIZE ->
     fst (Unlock mk s) = Throw /\
     vMasterKey (snd (Unlock mk s)) = vMasterKey s /\
     fDecryptionThoroughlyChecked (snd (Unlock mk s))
     = fDecryptionThoroughlyChecked s /\
     nStatusChanged (snd (Unlock mk s)) = nStatusChanged s).
Proof.
  intros Hc.
  destruct (SetCrypted_cases s) as [[E _]|E]; rewrite E in Hc; [discriminate|].
  split; [| split; [apply Unlock_scan_returns|]].
  - intros st k1 k2 R In1 In2.
    destruct (Unlock_scan_flags_match s mk st R) as [Fp Ff].
    assert (keyPass st = true) as P.
    { rewrite Fp. apply existsb_exists. now exists (k1, true). }
    assert (keyFail st = true) as F.
    { rewrite Ff. apply existsb_exists. now exists (k2, false). }
    rewrite (Unlock_decision s _ mk st E) by now rewrite Unlock_scan_mode_flag.
    rewrite P, F. simpl. repeat split.
  - intros idA pkA ctA kA idB pkB ctB kB rest a ct rest'
           Off Keys DA DB Sks Short Hk.
    rewrite (Unlock_scan_throws s _ mk E); [simpl; repeat split|].
    rewrite Unlock_scan_mode_flag. unfold Unlock_scan.
    rewrite Off, Keys, Sks. simpl. rewrite DA. simpl. rewrite DB. simpl.
    unfold DecryptSpendingKey.
    now rewrite (DecryptSecret_short_throws mk ct _ [] Hk Short).
Qed.

(** C7: on a store in encrypted mode, when every decryption that [Unlock]
    attempts returns and none returns success (each one returns failure),
    and in particular when both encrypted maps are empty, [Unlock] returns
    [false] and leaves the store exactly as it was: the master key and the
    check flag are unchanged, a locked store stays locked, and the count of
    notifications is the same; the scan returns its attempts whenever the
    stored ciphertexts are well sized.  What the code does otherwise: when
    the first transparent-key record has a ciphertext shorter than the
    authentication tag, no decryption succeeds either, but [Unlock] with a
    candidate key of the fixed size throws (the store unchanged), where the
    specification asks for a returned failure. *)
Theorem Unlock_without_success (s : Store) (mk : CKeyingMaterial) :
  fUseCrypto s = true ->
  (forall st, Unlock_scan s mk = Ret st ->
     (forall k b, In (k, b) (tried st) -> b = false) ->
     Unlock mk s = (Ret false, s)) /\
  (mapCryptedKeys s = [] -> mapCryptedSpendingKeys s = [] ->
   Unlock mk s = (Ret false, s)) /\
  (Unlock mk s = (Ret false, s) ->
   vMasterKey (snd (Unlock mk s)) = vMasterKey s /\
   fDecryptionThoroughlyChecked (snd (Unlock mk s))
   = fDecryptionThoroughlyChecked s /\
   IsLocked (snd (Unlock mk s)) = IsLocked s /\
   nStatusChanged (snd (Unlock mk s)) = nStatusChanged s) /\
  (ciphertexts_well_sized s -> exists st, Unlock_scan s mk = Ret st) /\
  (forall id pk ct rest,
     mapCryptedKeys s = (id, (pk, ct)) :: rest ->
     Z.of_nat (length ct) < crypto_secretbox_MACBYTES ->
     length mk = WALLET_CRYPTO_KEY_SIZE ->
     Unlock mk s = (Throw, s)).
Proof.
  intros Hc.
  assert (forall st, Unlock_scan s mk = Ret st -> keyPass st = false ->
                     Unlock mk s = (Ret false, s)) as Dec.
  { intros st R P.
    rewrite (Unlock_decision s s mk st (SetCrypted_crypted s Hc) R).
    rewrite P. simpl. now rewrite orb_true_r. }
  split; [| split; [| split; [| split]]].
  - intros st R Hall. apply (Dec st R).
    destruct (Unlock_scan_flags_match s mk st R) as [Fp _].
    rewrite Fp. destruct (existsb _ (tried st)) eqn:X; [|reflexivity].
    apply existsb_exists in X. destruct X as ([k b] & I & B).
    simpl in B. subst b. now apply Hall in I.
  - intros E1 E2. apply (Dec scan_start); [|reflexivity].
    unfold Unlock_scan. now rewrite E1, E2.
  - intros ->. repeat split.
  - apply Unlock_scan_returns.
  - intros id pk ct rest Keys Short Hk.
    apply (Unlock_scan_throws s s mk (SetCrypted_crypted s Hc)).
    unfold Unlock_scan. rewrite Keys. simpl. unfold DecryptKey.
    now rewrite (DecryptSecret_short_throws mk ct _ [] Hk Short).
Qed.

(** *** What stays once set *)

Section Stable.
Variable P : Store -> Prop.
Hypothesis St : stable P.

Lemma NotifyStatusChanged_preserves : preserves P NotifyStatusChanged.
Proof. unfold NotifyStatusChanged. preserve St. Qed.

Lemma SetCrypted_preserves : preserves P SetCrypted.
Proof. unfold SetCrypted. preserve St. Qed.

Hint Resolve NotifyStatusChanged_preserves SetCrypted_preserves : store.

Lemma Lock_preserves : preserves P Lock.
Proof. unfold Lock. preserve St. Qed.

Lemma Unlock_preserves mk : preserves P (Unlock mk).
Proof. unfold Unlock. preserve St. Qed.

Lemma AddCryptedKey_preserves pk c : preserves P (AddCryptedKey pk c).
Proof. unfold AddCryptedKey. preserve St. Qed.

Lemma AddCryptedSpendingKey_preserves a vk c :
  preserves P (AddCryptedSpendingKey a vk c).
Proof. unfold AddCryptedSpendingKey. preserve St. Qed.

Hint Resolve AddCryptedKey_preserves AddCryptedSpendingKey_preserves : store.

Lemma AddKeyPubKey_preserves key pk : preserves P (AddKeyPubKey key pk).
Proof. unfold AddKeyPubKey, CBasicKeyStore_AddKeyPubKey. preserve St. Qed.

Lemma AddSpendingKey_preserves sk : preserves P (AddSpendingKey sk).
Proof. unfold AddSpendingKey, CBasicKeyStore_AddSpendingKey. preserve St. Qed.

Lemma GetKey_preserves a k : preserves P (GetKey a k).
Proof. unfold GetKey, CBasicKeyStore_GetKey. preserve St. Qed.

Lemma GetPubKey_preserves a pk : preserves P (GetPubKey a pk).
Proof. unfold GetPubKey, CKeyStore_GetPubKey. preserve St. Qed.

Lemma GetSpendingKey_preserves a sk : preserves P (GetSpendingKey a sk).
Proof. unfold GetSpendingKey, CBasicKeyStore_GetSpendingKey. preserve St. Qed.

Lemma EncryptKeys_keys_preserves mk entries :
  preserves P (EncryptKeys_keys mk entries).
Proof.
  induction entries as [|e rest IH]; simpl; preserve St.
Qed.

Lemma EncryptKeys_spending_preserves mk entries :
  preserves P (EncryptKeys_spending mk entries).
Proof.
  induction entries as [|e rest IH]; simpl; preserve St.
Qed.

Hint Resolve EncryptKeys_keys_preserves EncryptKeys_spending_preserves : store.

Lemma EncryptKeys_preserves mk : preserves P (EncryptKeys mk).
Proof. unfold EncryptKeys. preserve St. Qed.

Lemma run_op_preserves (o : op) (s : Store) : P s -> P (run_op o s).
Proof.
  intros Hs. destruct o; simpl.
  - now apply SetCrypted_preserves.
  - now apply Lock_preserves.
  - now apply Unlock_preserves.
  - now apply AddKeyPubKey_preserves.
  - now apply AddCryptedKey_preserves.
  - now apply GetKey_preserves.
  - now apply GetPubKey_preserves.
  - now apply AddSpendingKey_preserves.
  - now apply AddCryptedSpendingKey_preserves.
  - now apply GetSpendingKey_preserves.
  - now apply EncryptKeys_preserves.
Qed.

Lemma run_ops_preserves (os : list op) : forall s, P s -> P (run_ops os s).
Proof.
  unfold run_ops. induction os as [|o os IH]; simpl; intros s Hs.
  - exact Hs.
  - apply IH. now apply run_op_preserves.
Qed.

End Stable.

Lemma crypted_mode_stable : stable (fun s => fUseCrypto s = true).
Proof. intros s Hs. simpl. repeat split; auto. Qed.

Lemma check_flag_stable : stable (fun s => fDecryptionThoroughlyChecked s = true).
Proof. intros s Hs. simpl. repeat split; auto. Qed.

Lemma crypted_mode_kept (os : list op) (s : Store) :
  fUseCrypto s = true -> fUseCrypto (run_ops os s) = true.
Proof.
  apply (run_ops_preserves (fun s => fUseCrypto s = true) crypted_mode_stable).
Qed.

Lemma check_flag_kept (os : list op) (s : Store) :
  fDecryptionThoroughlyChecked s = true ->
  fDecryptionThoroughlyChecked (run_ops os s) = true.
Proof.
  apply (run_ops_preserves (fun s => fDecryptionThoroughlyChecked s = true)
           check_flag_stable).
Qed.

(** *** A successful [Unlock] *)

Lemma Unlock_true_inv (s : Store) (mk : CKeyingMaterial) :
  fst (Unlock mk s) = Ret true ->
  exists st,
    Unlock_scan s mk = Ret st /\ keyPass st = true /\ keyFail st = false /\
    Unlock mk s = (Ret true, unlocked_with mk (set_fUseCrypto true s)).
Proof.
  intros U.
  destruct (SetCrypted_cases s) as [[E _]|E].
  - rewrite (Unlock_not_crypted s mk E) in U. discriminate.
  - destruct (Unlock_scan s mk) as [st| |] eqn:R.
    + exists st. split; [reflexivity|].
      rewrite (Unlock_decision s _ mk st E) in * by now rewrite Unlock_scan_mode_flag.
      destruct (keyPass st), (keyFail st); simpl in *; try discriminate.
      now repeat split.
    + rewrite (Unlock_scan_throws s _ mk E) in U
        by now rewrite Unlock_scan_mode_flag.
      discriminate.
    + revert U. unfold Unlock, bind. rewrite E. simpl. unfold lift.
      rewrite Unlock_scan_mode_flag, R. discriminate.
Qed.

(** C2, as the code has it: while the check flag of the store is unset, a
    scan that meets no failure attempts every transparent-key record and
    then every spending-key record; once the flag is set, each of the two
    loops stops after its first attempt, so the unlock only spot-checks the
    first record of each kind; a successful [Unlock] sets the flag, and no
    operation clears it. *)
Theorem Unlock_check_policy (s : Store) (mk : CKeyingMaterial) :
  (forall st, Unlock_scan s mk = Ret st ->
     fDecryptionThoroughlyChecked s = false -> keyFail st = false ->
     tried st = map (fun e => (fst e, true)) (mapCryptedKeys s)
                ++ map (fun e => (fst e, true)) (mapCryptedSpendingKeys s)) /\
  (forall st, Unlock_scan s mk = Ret st ->
     fDecryptionThoroughlyChecked s = true ->
     map fst (tried st) = map fst (firstn 1 (mapCryptedKeys s))
                          ++ map fst (firstn 1 (mapCryptedSpendingKeys s))) /\
  (fst (Unlock mk s) = Ret true ->
   fDecryptionThoroughlyChecked (snd (Unlock mk s)) = true) /\
  (forall os, fDecryptionThoroughlyChecked s = true ->
     fDecryptionThoroughlyChecked (run_ops os s) = true).
Proof.
  split; [| split; [| split]].
  - intros st R Off NoFail. unfold Unlock_scan in R. rewrite Off in R.
    match type of R with obind ?first _ = _ => destruct first as [st1| |] eqn:R1 end;
      simpl in R; try discriminate.
    assert (keyFail st1 = false) as NoFail1.
    { destruct (keyFail st1) eqn:F1; [|reflexivity].
      rewrite (scan_keyFail_kept _ _ _ _ _ R F1) in NoFail. discriminate. }
    rewrite (scan_unchecked_all _ _ _ _ R NoFail).
    now rewrite (scan_unchecked_all _ _ _ _ R1 NoFail1).
  - intros st R On. unfold Unlock_scan in R. rewrite On in R.
    match type of R with obind ?first _ = _ => destruct first as [st1| |] eqn:R1 end;
      simpl in R; try discriminate.
    rewrite (scan_checked_first_only _ _ _ _ R).
    now rewrite (scan_checked_first_only _ _ _ _ R1).
  - intros U. destruct (Unlock_true_inv s mk U) as (st & _ & _ & _ & E).
    now rewrite E.
  - intros os. apply check_flag_kept.
Qed.

(** *** [Lock] *)

Lemma Lock_after_SetCrypted (s s' : Store) :
  SetCrypted s = (Ret true, s') ->
  Lock s = (Ret true, set_nStatusChanged (S (nStatusChanged s')) (set_vMasterKey [] s')).
Proof. intros E. unfold Lock, bind. now rewrite E. Qed.

Lemma Lock_refused (s : Store) :
  SetCrypted s = (Ret false, s) -> Lock s = (Ret false, s).
Proof. intros E. unfold Lock, bind. now rewrite E. Qed.

(** C10: on a store in plain mode with both plaintext maps empty, [Lock]
    returns [true] and leaves the store in encrypted mode (with the master
    key cleared and one notification sent), and no later sequence of
    operations takes it out of encrypted mode; on a store in plain mode
    with an entry in either plaintext map, [Lock] returns [false] and
    changes nothing. *)
Theorem Lock_plain_store (s : Store) :
  fUseCrypto s = false ->
  (mapKeys s = [] -> mapSpendingKeys s = [] ->
   Lock s = (Ret true,
             set_nStatusChanged (S (nStatusChanged s))
               (set_vMasterKey [] (set_fUseCrypto true s))) /\
   fUseCrypto (snd (Lock s)) = true /\
   forall os, fUseCrypto (run_ops os (snd (Lock s))) = true) /\
  (mapKeys s <> [] \/ mapSpendingKeys s <> [] -> Lock s = (Ret false, s)).
Proof.
  intros Plain. split.
  - intros E1 E2.
    rewrite (Lock_after_SetCrypted s _ (SetCrypted_plain_empty s Plain E1 E2)).
    split; [reflexivity|]. split; [reflexivity|].
    intros os. now apply crypted_mode_kept.
  - intros N. apply Lock_refused. now apply SetCrypted_plain_nonempty.
Qed.

(** *** Adding keys in encrypted mode *)

Lemma AddCryptedKey_crypted (s : Store) (pk : CPubKey) (ct : bytes) :
  fUseCrypto s = true ->
  AddCryptedKey pk ct s
  = (Ret true,
     set_mapCryptedKeys
       (map_assign (PubKey_GetID pk) (pk, ct) (mapCryptedKeys s)) s).
Proof.
  intros E. unfold AddCryptedKey, bind. now rewrite (SetCrypted_crypted s E).
Qed.

Lemma AddCryptedSpendingKey_crypted (s : Store) (a : PaymentAddress)
    (vk : ViewingKey) (ct : bytes) :
  fUseCrypto s = true ->
  AddCryptedSpendingKey a vk ct s
  = (Ret true,
     set_mapNoteDecryptors (map_insert a vk (mapNoteDecryptors s))
       (set_mapCryptedSpendingKeys
          (map_assign a ct (mapCryptedSpendingKeys s)) s)).
Proof.
  intros E. unfold AddCryptedSpendingKey, bind.
  now rewrite (SetCrypted_crypted s E).
Qed.

Lemma AddKeyPubKey_crypted (s : Store) (key : CKey) (pubkey : CPubKey) :
  fUseCrypto s = true ->
  AddKeyPubKey key pubkey s =
    if IsLocked s then (Ret false, s)
    else
      match EncryptSecret (vMasterKey s) (key_secret key)
              (PubKey_GetHash pubkey) [] with
      | Ret (true, ct) =>
          (Ret true,
           set_mapCryptedKeys
             (map_assign (PubKey_GetID pubkey) (pubkey, ct) (mapCryptedKeys s)) s)
      | Ret (false, _) => (Ret false, s)
      | Throw => (Throw, s)
      | Abort => (Abort, s)
      end.
Proof.
  intros E. unfold AddKeyPubKey, bind, get, IsCrypted. rewrite E. simpl.
  destruct (IsLocked s); [reflexivity|]. unfold lift.
  destruct (EncryptSecret _ _ _ _) as [[[|] ct]| |]; simpl; try reflexivity.
  now rewrite (AddCryptedKey_crypted s pubkey ct E).
Qed.

Lemma AddSpendingKey_crypted (s : Store) (sk : SpendingKey) :
  fUseCrypto s = true ->
  AddSpendingKey sk s =
    if IsLocked s then (Ret false, s)
    else
      match EncryptSecret (vMasterKey s) (SpendingKey_serialize sk)
              (PaymentAddress_GetHash (SpendingKey_address sk)) [] with
      | Ret (true, ct) =>
          (Ret true,
           set_mapNoteDecryptors
             (map_insert (SpendingKey_address sk) (SpendingKey_viewing_key sk)
                (mapNoteDecryptors s))
             (set_mapCryptedSpendingKeys
                (map_assign (SpendingKey_address sk) ct
                   (mapCryptedSpendingKeys s)) s))
      | Ret (false, _) => (Ret false, s)
      | Throw => (Throw, s)
      | Abort => (Abort, s)
      end.
Proof.
  intros E. unfold AddSpendingKey, bind, get, IsCrypted. rewrite E. simpl.
  destruct (IsLocked s); [reflexivity|]. unfold lift.
  destruct (EncryptSecret _ _ _ _) as [[[|] ct]| |]; simpl; try reflexivity.
  now rewrite (AddCryptedSpendingKey_crypted s _ _ ct E).
Qed.

(** *** [EncryptKeys] *)

Lemma EncryptKeys_crypted (s : Store) (mk : CKeyingMaterial) :
  fUseCrypto s = true -> EncryptKeys mk s = (Ret false, s).
Proof.
  intros E. unfold EncryptKeys, bind, get, IsCrypted. rewrite E.
  now rewrite orb_true_r.
Qed.

Lemma EncryptKeys_spending_keeps_mapKeys (mk : CKeyingMaterial) entries :
  preserves (fun s => mapKeys s = []) (EncryptKeys_spending mk entries).
Proof.
  induction entries as [|e rest IH]; simpl; preserve_field.
  unfold AddCryptedSpendingKey, SetCrypted. preserve_field.
Qed.

(** A successful [EncryptKeys] leaves the store in encrypted mode with both
    plaintext maps empty. *)
Lemma EncryptKeys_true_inv (s : Store) (mk : CKeyingMaterial) :
  fst (EncryptKeys mk s) = Ret true ->
  fUseCrypto (snd (EncryptKeys mk s)) = true /\
  mapKeys (snd (EncryptKeys mk s)) = [] /\
  mapSpendingKeys (snd (EncryptKeys mk s)) = [].
Proof.
  intros R. split.
  - destruct (fUseCrypto s) eqn:E.
    + now rewrite (EncryptKeys_crypted s mk E).
    + revert R. unfold EncryptKeys, bind, get, IsCrypted. rewrite E.
      destruct (negb (map_empty (mapCryptedKeys s)) || false);
        [discriminate|]. simpl.
      pose proof (EncryptKeys_keys_preserves _ crypted_mode_stable mk (mapKeys s)
                    (set_fUseCrypto true s) eq_refl) as P1.
      destruct (EncryptKeys_keys mk (mapKeys s) (set_fUseCrypto true s))
        as [[[|]| |] s1]; simpl in *; try discriminate.
      pose proof (EncryptKeys_spending_preserves _ crypted_mode_stable mk
                    (mapSpendingKeys s) (set_mapKeys [] s1) P1) as P2.
      destruct (EncryptKeys_spending mk (mapSpendingKeys s) (set_mapKeys [] s1))
        as [[[|]| |] s2]; simpl in *; try discriminate.
      intros _. exact P2.
  - revert R. unfold EncryptKeys, bind, get.
    destruct (negb (map_empty (mapCryptedKeys s)) || IsCrypted s);
      [discriminate|]. simpl.
    destruct (EncryptKeys_keys mk (mapKeys s) (set_fUseCrypto true s))
      as [[[|]| |] s1]; simpl; try discriminate.
    pose proof (EncryptKeys_spending_keeps_mapKeys mk (mapSpendingKeys s)
                  (set_mapKeys [] s1) eq_refl) as P2.
    destruct (EncryptKeys_spending mk (mapSpendingKeys s) (set_mapKeys [] s1))
      as [[[|]| |] s2]; simpl in *; try discriminate.
    intros _. now split.
Qed.

(** C6: a successful [SetCrypted] or [EncryptKeys] leaves the store in
    encrypted mode (after [EncryptKeys], with both plaintext maps empty).
    On a store in encrypted mode, [AddKeyPubKey] and [AddSpendingKey] leave
    both plaintext maps as they are: either they return [true] having
    inserted the encrypted record, or they do not return [true] and the
    store is unchanged; [EncryptKeys] returns [false] and changes nothing;
    and after any sequence of operations the store is still in encrypted
    mode. *)
Theorem crypted_mode_is_final (s : Store) :
  (fst (SetCrypted s) = Ret true -> fUseCrypto (snd (SetCrypted s)) = true) /\
  (forall mk, fst (EncryptKeys mk s) = Ret true ->
     fUseCrypto (snd (EncryptKeys mk s)) = true /\
     mapKeys (snd (EncryptKeys mk s)) = [] /\
     mapSpendingKeys (snd (EncryptKeys mk s)) = []) /\
  (fUseCrypto s = true ->
   (forall key pubkey,
      mapKeys (snd (AddKeyPubKey key pubkey s)) = mapKeys s /\
      mapSpendingKeys (snd (AddKeyPubKey key pubkey s)) = mapSpendingKeys s /\
      ((exists ct,
          EncryptSecret (vMasterKey s) (key_secret key)
            (PubKey_GetHash pubkey) [] = Ret (true, ct) /\
          AddKeyPubKey key pubkey s
          = (Ret true,
             set_mapCryptedKeys
               (map_assign (PubKey_GetID pubkey) (pubkey, ct)
                  (mapCryptedKeys s)) s)) \/
       (fst (AddKeyPubKey key pubkey s) <> Ret true /\
        snd (AddKeyPubKey key pubkey s) = s))) /\
   (forall sk,
      mapKeys (snd (AddSpendingKey sk s)) = mapKeys s /\
      mapSpendingKeys (snd (AddSpendingKey sk s)) = mapSpendingKeys s /\
      ((exists ct,
          EncryptSecret (vMasterKey s) (SpendingKey_serialize sk)
            (PaymentAddress_GetHash (SpendingKey_address sk)) []
          = Ret (true, ct) /\
          mapCryptedSpendingKeys (snd (AddSpendingKey sk s))
          = map_assign (SpendingKey_address sk) ct (mapCryptedSpendingKeys s) /\
          fst (AddSpendingKey sk s) = Ret true) \/
       (fst (AddSpendingKey sk s) <> Ret true /\
        snd (AddSpendingKey sk s) = s))) /\
   (forall mk, EncryptKeys mk s = (Ret false, s)) /\
   (forall os, fUseCrypto (run_ops os s) = true)).
Proof.
  split; [| split].
  - intros R. destruct (SetCrypted_cases s) as [[E _]|E]; rewrite E in *;
      [discriminate | reflexivity].
  - intros mk. apply EncryptKeys_true_inv.
  - intros Hc. split; [| split; [| split]].
    + intros key pubkey. rewrite (AddKeyPubKey_crypted s key pubkey Hc).
      destruct (IsLocked s);
        [repeat split; right; split; [discriminate | reflexivity]|].
      destruct (EncryptSecret _ _ _ _) as [[[|] ct]| |]; simpl;
        repeat split;
        try (right; split; [discriminate | reflexivity]).
      left. exists ct. now split.
    + intros sk. rewrite (AddSpendingKey_crypted s sk Hc).
      destruct (IsLocked s);
        [repeat split; right; split; [discriminate | reflexivity]|].
      destruct (EncryptSecret _ _ _ _) as [[[|] ct]| |]; simpl;
        repeat split;
        try (right; split; [discriminate | reflexivity]).
      left. exists ct. now repeat split.
    + intros mk. now apply EncryptKeys_crypted.
    + intros os. now apply crypted_mode_kept.
Qed.

(** *** Reading a key back in encrypted mode *)

Lemma map_find_assign {V} (k : bytes) (v : V) (m : std_map V) :
  map_find k (map_assign k v m) = Some v.
Proof.
  induction m as [|[k' v'] r IH]; simpl.
  - now rewrite bytes_eqb_refl.
  - destruct (bytes_ltb k k'); simpl; [now rewrite bytes_eqb_refl|].
    destruct (bytes_eqb k k') eqn:E; simpl.
    + now rewrite bytes_eqb_refl.
    + now rewrite E.
Qed.

Lemma GetKey_crypted (s : Store) (address : CKeyID) (keyOut : CKey) :
  fUseCrypto s = true ->
  GetKey address keyOut s =
    match map_find address (mapCryptedKeys s) with
    | Some (vchPubKey, vchCryptedSecret) =>
        (DecryptKey (vMasterKey s) vchCryptedSecret vchPubKey keyOut, s)
    | None => (Ret (false, keyOut), s)
    end.
Proof.
  intros E. unfold GetKey, bind, get, IsCrypted. rewrite E. simpl.
  destruct (map_find address (mapCryptedKeys s)) as [[pk ct]|]; reflexivity.
Qed.

(** C8: on a store in encrypted mode, [GetKey] returns [false] when the
    encrypted map has no entry for the identity.  When it has the entry
    (public key, ciphertext), the ciphertext is decrypted under the master
    key of the store with the hash of the stored public key as nonce, the
    nonce under which [AddKeyPubKey] encrypts the secret it stores for that
    public key; if the decryption returns success with a 32-byte secret, the
    key is rebuilt from the secret and [GetKey] returns [true] exactly when
    the public key of the rebuilt key is the stored public key; if the
    decryption returns failure or the secret has another size, [GetKey]
    returns [false].  What the code does otherwise: when the entry is
    present with a ciphertext shorter than the authentication tag and a
    master key of the fixed size is held, the decryption throws and so does
    [GetKey], where the specification asks for success or a returned
    failure.  The store is unchanged in every case. *)
Theorem GetKey_in_crypted_mode (s : Store) (address : CKeyID) (keyOut : CKey) :
  fUseCrypto s = true ->
  (map_find address (mapCryptedKeys s) = None ->
   GetKey address keyOut s = (Ret (false, keyOut), s)) /\
  (forall vchPubKey vchCryptedSecret ok vchSecret,
     map_find address (mapCryptedKeys s) = Some (vchPubKey, vchCryptedSecret) ->
     DecryptSecret (vMasterKey s) vchCryptedSecret (PubKey_GetHash vchPubKey) []
     = Ret (ok, vchSecret) ->
     let key := CKey_Set vchSecret (PubKey_IsCompressed vchPubKey) in
     (ok = true -> length vchSecret = 32%nat ->
      GetKey address keyOut s
      = (Ret (bytes_eqb (CKey_GetPubKey key) vchPubKey, key), s) /\
      (fst (GetKey address keyOut s) = Ret (true, key)
       <-> CKey_GetPubKey key = vchPubKey)) /\
     (ok = false \/ length vchSecret <> 32%nat ->
      GetKey address keyOut s = (Ret (false, keyOut), s))) /\
  (forall key pubkey ct,
     IsLocked s = false ->
     EncryptSecret (vMasterKey s) (key_secret key) (PubKey_GetHash pubkey) []
     = Ret (true, ct) ->
     let s' := snd (AddKeyPubKey key pubkey s) in
     map_find (PubKey_GetID pubkey) (mapCryptedKeys s') = Some (pubkey, ct) /\
     vMasterKey s' = vMasterKey s /\
     GetKey (PubKey_GetID pubkey) keyOut s'
     = (DecryptKey (vMasterKey s) ct pubkey keyOut, s')) /\
  (forall vchPubKey vchCryptedSecret,
     map_find address (mapCryptedKeys s) = Some (vchPubKey, vchCryptedSecret) ->
     Z.of_nat (length vchCryptedSecret) < crypto_secretbox_MACBYTES ->
     length (vMasterKey s) = WALLET_CRYPTO_KEY_SIZE ->
     GetKey address keyOut s = (Throw, s)).
Proof.
  intros Hc. rewrite (GetKey_crypted s address keyOut Hc).
  split; [| split; [| split]].
  4:{ intros pk ct Found Short Hk. rewrite Found. unfold DecryptKey.
      now rewrite (DecryptSecret_short_throws _ ct _ [] Hk Short). }
  - now intros ->.
  - intros pk ct ok secret Found Dec key. rewrite Found.
    unfold DecryptKey. rewrite Dec. simpl. split.
    + intros -> Len. rewrite Len. simpl. fold key.
      unfold CKey_VerifyPubKey. split; [reflexivity|].
      simpl. rewrite <- bytes_eqb_eq.
      destruct (bytes_eqb (CKey_GetPubKey key) pk); split; congruence.
    + intros [-> | Len]; [reflexivity|].
      destruct ok; simpl; [|reflexivity].
      destruct (Nat.eqb_spec (length secret) 32); [contradiction | reflexivity].
  - intros key pubkey ct Unl Enc s'.
    assert (s' = set_mapCryptedKeys
                   (map_assign (PubKey_GetID pubkey) (pubkey, ct)
                      (mapCryptedKeys s)) s) as Es'.
    { unfold s'. rewrite (AddKeyPubKey_crypted s key pubkey Hc), Unl, Enc.
      reflexivity. }
    assert (map_find (PubKey_GetID pubkey) (mapCryptedKeys s') = Some (pubkey, ct))
      as Found by (rewrite Es'; simpl; apply map_find_assign).
    split; [exact Found|]. split; [now rewrite Es'|].
    rewrite (GetKey_crypted s' _ keyOut) by now rewrite Es'.
    rewrite Found. now rewrite Es'.
Qed.

End WithCollaborators.
End KeyStoreProperties.

(** ** The properties on the sample instance *)

Module SampleRuns.
Import Crypter KeyStore KeyStoreProperties Sample.

Lemma box_tag_length (n k : bytes) : length (box_tag n k) = 16%nat.
Proof.
  unfold box_tag, pad.
  now rewrite length_app, !store_at_start_length, !zeros_length.
Qed.

(** The sample box keeps the contract of the authenticated encryption. *)
Lemma sample_secretbox_contract : secretbox_contract.
Proof.
  intros m n k _ _. exists (box_tag n k ++ m).
  assert (length (box_tag n k ++ m) = (16 + length m)%nat) as L
    by now rewrite length_app, box_tag_length.
  split; [| split].
  - simpl. unfold box_easy. now rewrite Nat2Z.id, firstn_all.
  - rewrite L. unfold crypto_secretbox_MACBYTES. lia.
  - simpl. unfold box_open_easy. rewrite Nat2Z.id, firstn_all, L.
    destruct (Nat.ltb_spec (16 + length m) 16) as [B|_]; [lia|].
    rewrite firstn_app, box_tag_length, Nat.sub_diag. simpl firstn at 2.
    rewrite app_nil_r, firstn_all2 by (rewrite box_tag_length; lia).
    rewrite bytes_eqb_refl.
    rewrite skipn_app, box_tag_length, Nat.sub_diag. simpl skipn at 2.
    now rewrite skipn_all2 by (rewrite box_tag_length; lia).
Qed.

Lemma SetKeyFromPassphrase_other_method_accepted_witness :
  SetKeyFromPassphrase CCrypter_new passphrase salt 1 1 []
  = (true, mkCrypter (zeros 32) (zeros 32) true).
Proof.
  apply (SetKeyFromPassphrase_other_method_accepted
           CCrypter_new passphrase salt 1 1 []).
  - lia.
  - reflexivity.
  - discriminate.
Defined.

Lemma Decrypt_lengths_witness :
  Decrypt cipher_A [] [] = Throw /\
  Z.of_nat (length (key_secret keyA))
  = Z.of_nat (length (crypted_secret K keyA)) - crypto_secretbox_MACBYTES.
Proof.
  split.
  - apply (proj1 (Decrypt_lengths cipher_A [] [] eq_refl
                    ltac:(vm_compute; discriminate))).
    reflexivity.
  - apply (proj2 (Decrypt_lengths cipher_A (crypted_secret K keyA) [] eq_refl
                    ltac:(vm_compute; discriminate))).
    reflexivity.
Defined.




Lemma sample_stores_well_sized :
  ciphertexts_well_sized store_A /\ ciphertexts_well_sized store_AB.
Proof.
  split; (split; repeat constructor; vm_compute; discriminate).
Qed.

Lemma Unlock_mixed_results_abort_witness :
  (fst (Unlock K store_AB) = Abort /\
   vMasterKey (snd (Unlock K store_AB)) = vMasterKey store_AB /\
   fDecryptionThoroughlyChecked (snd (Unlock K store_AB))
   = fDecryptionThoroughlyChecked store_AB /\
   nStatusChanged (snd (Unlock K store_AB)) = nStatusChanged store_AB) /\
  (exists st, Unlock_scan store_AB K = Ret st) /\
  fst (Unlock K SampleMore.store_AB_short_spending) = Throw /\
  vMasterKey (snd (Unlock K SampleMore.store_AB_short_spending)) = [].
Proof.
  destruct (Unlock_mixed_results_abort store_AB K eq_refl)
    as (Mixed & Returns & _).
  destruct (Unlock_mixed_results_abort SampleMore.store_AB_short_spending K
              eq_refl) as (_ & _ & Thrown).
  split; [| split].
  - apply (Mixed (scan_of store_AB K) (PubKey_GetID pubA) (PubKey_GetID pubB)).
    + reflexivity.
    + vm_compute. left. reflexivity.
    + vm_compute. right. left. reflexivity.
  - apply Returns. exact (proj2 sample_stores_well_sized).
  - destruct (Thrown (PubKey_GetID pubA) pubA (crypted_secret K keyA) keyA
                (PubKey_GetID pubB) pubB (crypted_secret K2 keyB) CKey_new []
                SampleMore.addrS [] [])
      as (T & MK & _).
    + reflexivity.
    + vm_compute. reflexivity.
    + vm_compute. reflexivity.
    + vm_compute. reflexivity.
    + vm_compute. reflexivity.
    + vm_compute. reflexivity.
    + reflexivity.
    + split; [exact T | exact MK].
Defined.

Lemma Unlock_without_success_witness :
  Unlock K2 store_A = (Ret false, store_A) /\
  Unlock K store_empty_crypted = (Ret false, store_empty_crypted) /\
  IsLocked (snd (Unlock K2 store_A)) = IsLocked store_A /\
  (exists st, Unlock_scan store_A K2 = Ret st) /\
  Unlock K SampleMore.store_truncated = (Throw, SampleMore.store_truncated).
Proof.
  destruct (Unlock_without_success store_A K2 eq_refl)
    as (NoSuccess & _ & Unchanged & Returns & _).
  destruct (Unlock_without_success SampleMore.store_truncated K eq_refl)
    as (_ & _ & _ & _ & Thrown).
  assert (Unlock K2 store_A = (Ret false, store_A)) as U.
  { apply (NoSuccess (scan_of store_A K2)); [reflexivity|].
    intros k b I. vm_compute in I. destruct I as [E|[]]. now inversion E. }
  split; [exact U | split; [| split; [| split]]].
  - apply (proj1 (proj2 (Unlock_without_success store_empty_crypted K eq_refl)));
      reflexivity.
  - apply (Unchanged U).
  - apply Returns. exact (proj1 sample_stores_well_sized).
  - apply (Thrown (PubKey_GetID pubA) pubA [] []).
    + vm_compute. reflexivity.
    + vm_compute. reflexivity.
    + reflexivity.
Defined.

(** C2 as the specification states it fails: it is not the case that a scan with the
    check flag set attempts every record (in [store_AB_checked], whose flag
    a successful unlock has set, the record under the other master key is
    never attempted and [Unlock(K)] succeeds), nor that a scan with the
    flag unset stops after the first success of a kind (in [store_AB_K]
    both records are attempted). *)
Lemma Unlock_thorough_flag_counterexample :
  ~ (forall s mk st, Unlock_scan s mk = Ret st ->
       fDecryptionThoroughlyChecked s = true ->
       map fst (tried st) = map fst (mapCryptedKeys s)
                            ++ map fst (mapCryptedSpendingKeys s)) /\
  ~ (forall s mk st, Unlock_scan s mk = Ret st ->
       fDecryptionThoroughlyChecked s = false ->
       map fst (tried st) = map fst (firstn 1 (mapCryptedKeys s))
                            ++ map fst (firstn 1 (mapCryptedSpendingKeys s))) /\
  fst (Unlock K store_AB_checked) = Ret true /\
  fst (Unlock K store_AB) = Abort.
Proof.
  split; [| split; [| split]].
  - intros C.
    specialize (C store_AB_checked K (scan_of store_AB_checked K)
                  ltac:(reflexivity) ltac:(reflexivity)).
    vm_compute in C. discriminate C.
  - intros C.
    specialize (C store_AB_K K (scan_of store_AB_K K)
                  ltac:(reflexivity) ltac:(reflexivity)).
    vm_compute in C. discriminate C.
  - reflexivity.
  - reflexivity.
Qed.

Lemma Unlock_check_policy_witness :
  tried (scan_of store_AB_K K)
  = [(PubKey_GetID pubA, true); (PubKey_GetID pubB, true)] /\
  map fst (tried (scan_of store_AB_checked K)) = [PubKey_GetID pubA] /\
  fDecryptionThoroughlyChecked (snd (Unlock K store_A)) = true /\
  fDecryptionThoroughlyChecked
    (run_ops [OpLock; OpAddCryptedKey pubB (crypted_secret K2 keyB)]
       store_A_unlocked) = true.
Proof.
  split; [| split; [| split]].
  - apply (proj1 (Unlock_check_policy store_AB_K K)
             (scan_of store_AB_K K)); reflexivity.
  - apply (proj1 (proj2 (Unlock_check_policy store_AB_checked K))
             (scan_of store_AB_checked K)); reflexivity.
  - apply (proj1 (proj2 (proj2 (Unlock_check_policy store_A K)))).
    reflexivity.
  - apply (proj2 (proj2 (proj2 (Unlock_check_policy store_A_unlocked K)))).
    reflexivity.
Defined.

Lemma Lock_plain_store_witness :
  fst (Lock Store_new) = Ret true /\
  fUseCrypto (snd (Lock Store_new)) = true /\
  fUseCrypto (run_ops [OpUnlock K; OpAddKeyPubKey keyA pubA; OpEncryptKeys K]
                (snd (Lock Store_new))) = true /\
  Lock store_plain_A = (Ret false, store_plain_A).
Proof.
  destruct (Lock_plain_store Store_new eq_refl) as [Empty _].
  destruct (Empty eq_refl eq_refl) as (L & F & Ever).
  split; [now rewrite L | split; [exact F | split; [apply Ever|]]].
  apply (proj2 (Lock_plain_store store_plain_A eq_refl)).
  left. intros E. vm_compute in E. discriminate E.
Defined.

Lemma crypted_mode_is_final_witness :
  fUseCrypto (snd (SetCrypted Store_new)) = true /\
  mapKeys (snd (EncryptKeys K store_plain_A)) = [] /\
  mapKeys (snd (AddKeyPubKey keyB pubB store_A_unlocked)) = [] /\
  EncryptKeys K2 store_A_unlocked = (Ret false, store_A_unlocked) /\
  fUseCrypto (run_ops [OpLock; OpUnlock K2; OpEncryptKeys K2] store_A_unlocked)
  = true.
Proof.
  split; [| split; [| split; [| split]]].
  - apply (proj1 (crypted_mode_is_final Store_new)). reflexivity.
  - apply (proj1 (proj2 (crypted_mode_is_final store_plain_A)) K). reflexivity.
  - apply (proj1 (proj2 (proj2 (crypted_mode_is_final store_A_unlocked)) eq_refl)
             keyB pubB).
  - apply (proj2 (proj2 (crypted_mode_is_final store_A_unlocked)) eq_refl).
  - apply (proj2 (proj2 (crypted_mode_is_final store_A_unlocked)) eq_refl).
Defined.

Lemma GetKey_in_crypted_mode_witness :
  GetKey (PubKey_GetID pubB) CKey_new store_A_unlocked
  = (Ret (false, CKey_new), store_A_unlocked) /\
  fst (GetKey (PubKey_GetID pubA) CKey_new store_A_unlocked) = Ret (true, keyA) /\
  GetKey (PubKey_GetID pubA) CKey_new store_AB_checked
  = (Ret (false, CKey_new), store_AB_checked) /\
  map_find (PubKey_GetID pubB)
    (mapCryptedKeys (snd (AddKeyPubKey keyB pubB store_A_unlocked)))
  = Some (pubB, crypted_secret K keyB) /\
  GetKey (PubKey_GetID pubB) CKey_new SampleMore.store_A_unlocked_B_short
  = (Throw, SampleMore.store_A_unlocked_B_short).
Proof.
  destruct (GetKey_in_crypted_mode store_A_unlocked (PubKey_GetID pubB)
              CKey_new eq_refl) as (MissB & _ & AddB & _).
  destruct (GetKey_in_crypted_mode store_A_unlocked (PubKey_GetID pubA)
              CKey_new eq_refl) as (_ & FoundA & _).
  destruct (GetKey_in_crypted_mode store_AB_checked (PubKey_GetID pubA)
              CKey_new eq_refl) as (_ & LockedA & _).
  destruct (GetKey_in_crypted_mode SampleMore.store_A_unlocked_B_short
              (PubKey_GetID pubB) CKey_new eq_refl) as (_ & _ & _ & Thrown).
  split; [| split; [| split; [| split]]].
  - apply MissB. reflexivity.
  - assert (map_find (PubKey_GetID pubA) (mapCryptedKeys store_A_unlocked)
            = Some (pubA, crypted_secret K keyA)) as Found
      by (vm_compute; reflexivity).
    assert (DecryptSecret (vMasterKey store_A_unlocked) (crypted_secret K keyA)
              (PubKey_GetHash pubA) [] = Ret (true, key_secret keyA)) as Dec
      by (vm_compute; reflexivity).
    destruct (FoundA _ _ _ _ Found Dec) as [Ok _].
    destruct (Ok eq_refl eq_refl) as [_ Iff].
    apply (proj2 Iff). vm_compute. reflexivity.
  - assert (map_find (PubKey_GetID pubA) (mapCryptedKeys store_AB_checked)
            = Some (pubA, crypted_secret K keyA)) as Found
      by (vm_compute; reflexivity).
    assert (DecryptSecret (vMasterKey store_AB_checked) (crypted_secret K keyA)
              (PubKey_GetHash pubA) [] = Ret (false, [])) as Dec
      by (vm_compute; reflexivity).
    destruct (LockedA _ _ _ _ Found Dec) as [_ Ko].
    apply Ko. left. reflexivity.
  - assert (EncryptSecret (vMasterKey store_A_unlocked) (key_secret keyB)
              (PubKey_GetHash pubB) [] = Ret (true, crypted_secret K keyB)) as Enc
      by (vm_compute; reflexivity).
    apply (AddB keyB pubB (crypted_secret K keyB) eq_refl Enc).
  - apply (Thrown pubB []).
    + vm_compute. reflexivity.
    + vm_compute. reflexivity.
    + reflexivity.
Defined.

End SampleRuns.

(** * Further properties of the cipher and of the secret helpers *)

Module CrypterMore.
Import Crypter.

Section WithCollaborators.
Context `{Collaborators}.

(** X1: [SetKeyFromPassphrase] fails exactly when the round count is below
    one, the salt has not the fixed size, or, for method 0, the memory
    limit cannot be read or the derivation fails; a failed call leaves the
    cipher as it was (key, IV and readiness), and a successful one leaves
    it ready. *)
Theorem SetKeyFromPassphrase_failure (c : CCrypter) (strKeyData chSalt : bytes)
    (nRounds nDerivationMethod : N) (params : bytes) :
  let r := SetKeyFromPassphrase c strKeyData chSalt nRounds nDerivationMethod
             params in
  (fst r = false <->
   (nRounds < 1)%N \/ length chSalt <> WALLET_CRYPTO_SALT_SIZE \/
   (nDerivationMethod = 0%N /\
    (ReadCompactSize params = None \/
     exists memlimit,
       ReadCompactSize params = Some memlimit /\
       crypto_pwhash (WALLET_CRYPTO_KEY_SIZE + WALLET_CRYPTO_KEY_SIZE)
         strKeyData chSalt (Z.of_N nRounds) memlimit = None))) /\
  (fst r = false -> snd r = c) /\
  (fst r = true -> fKeySet (snd r) = true).
Proof.
  unfold SetKeyFromPassphrase.
  destruct (N.ltb_spec nRounds 1) as [R|R]; simpl.
  { repeat split; auto; discriminate. }
  destruct (Nat.eqb_spec (length chSalt) WALLET_CRYPTO_SALT_SIZE) as [S|S]; simpl.
  2:{ repeat split; auto; discriminate. }
  destruct (N.eqb_spec nDerivationMethod 0) as [M|M].
  - destruct (ReadCompactSize params) as [memlimit|] eqn:RC.
    + destruct (crypto_pwhash _ _ _ _ _) as [chOut|] eqn:PW; simpl.
      * repeat split; try discriminate; auto.
        intros [L|[L|[_ [L|(m' & E & L)]]]]; try lia; try congruence.
      * repeat split; auto; try discriminate.
        intros _. right. right. split; [assumption|]. right. eauto.
    + simpl. repeat split; auto; try discriminate.
  - simpl. repeat split; try discriminate; auto.
    intros [L|[L|[E _]]]; try lia; congruence.
Qed.

(** X2: for method 0 with valid parameters, when the derivation gives the
    [2 * WALLET_CRYPTO_KEY_SIZE] bytes asked for, the call succeeds and the
    key is the first half of the derived bytes and the IV the second half;
    nothing of the previous key or IV remains. *)
Theorem SetKeyFromPassphrase_splits_derived_bytes (c : CCrypter)
    (strKeyData chSalt : bytes) (nRounds : N) (params chOut : bytes)
    (memlimit : Z) :
  (1 <= nRounds)%N ->
  length chSalt = WALLET_CRYPTO_SALT_SIZE ->
  ReadCompactSize params = Some memlimit ->
  crypto_pwhash (WALLET_CRYPTO_KEY_SIZE + WALLET_CRYPTO_KEY_SIZE)
    strKeyData chSalt (Z.of_N nRounds) memlimit = Some chOut ->
  length chOut = (WALLET_CRYPTO_KEY_SIZE + WALLET_CRYPTO_KEY_SIZE)%nat ->
  exists c',
    SetKeyFromPassphrase c strKeyData chSalt nRounds 0 params = (true, c') /\
    fKeySet c' = true /\
    chKey c' ++ chIV c' = chOut /\
    length (chKey c') = WALLET_CRYPTO_KEY_SIZE /\
    length (chIV c') = WALLET_CRYPTO_KEY_SIZE.
Proof.
  intros R S RC PW L. unfold SetKeyFromPassphrase.
  destruct (N.ltb_spec nRounds 1) as [R'|_]; [lia|].
  rewrite S, Nat.eqb_refl. cbn [negb orb].
  change (0 =? 0)%N with true. cbv iota. rewrite RC, PW.
  eexists. split; [reflexivity|]. cbn [set_fKeySet fKeySet chKey chIV].
  split; [reflexivity|].
  assert (firstn WALLET_CRYPTO_KEY_SIZE (skipn WALLET_CRYPTO_KEY_SIZE chOut)
          = skipn WALLET_CRYPTO_KEY_SIZE chOut) as E.
  { apply firstn_all2. rewrite length_skipn, L. lia. }
  rewrite E. split; [apply firstn_skipn|].
  split.
  - rewrite length_firstn, L. lia.
  - rewrite length_skipn, L. lia.
Qed.

(** X3: [SetKey] succeeds exactly when key and IV both have the fixed
    size; then the cipher holds exactly that key and IV and is ready; a
    refused call leaves the cipher as it was. *)
Theorem SetKey_sizes (c : CCrypter) (chNewKey chNewIV : bytes) :
  (fst (SetKey c chNewKey chNewIV) = true <->
   length chNewKey = WALLET_CRYPTO_KEY_SIZE /\
   length chNewIV = WALLET_CRYPTO_KEY_SIZE) /\
  (fst (SetKey c chNewKey chNewIV) = true ->
   snd (SetKey c chNewKey chNewIV) = mkCrypter chNewKey chNewIV true) /\
  (fst (SetKey c chNewKey chNewIV) = false ->
   snd (SetKey c chNewKey chNewIV) = c).
Proof.
  destruct (Nat.eq_dec (length chNewKey) WALLET_CRYPTO_KEY_SIZE) as [Ek|Ek].
  - destruct (Nat.eq_dec (length chNewIV) WALLET_CRYPTO_KEY_SIZE) as [Ei|Ei].
    + rewrite (SetKey_fixed_sizes c _ _ Ek Ei). simpl.
      repeat split; auto; discriminate.
    + unfold SetKey. rewrite Ek, Nat.eqb_refl.
      destruct (Nat.eqb_spec (length chNewIV) WALLET_CRYPTO_KEY_SIZE);
        [contradiction|]. simpl.
      repeat split; auto; try discriminate. now intros [_ ?].
  - rewrite (SetKey_wrong_size c _ chNewIV Ek). simpl.
    repeat split; auto; try discriminate. now intros [? _].
Qed.

(** X4: with the cipher ready and a plaintext whose length plus the tag
    length fits an [int], [Encrypt] returns (it does not throw), and the
    ciphertext buffer it leaves has exactly the plaintext length plus the
    tag length, whether the box reports success or not and whatever the
    buffer held before. *)
Theorem Encrypt_ciphertext_length (c : CCrypter) (vchPlaintext ct0 : bytes) :
  fKeySet c = true ->
  Z.of_nat (length vchPlaintext) + crypto_secretbox_MACBYTES <= INT_MAX ->
  exists ok ct,
    Encrypt c vchPlaintext ct0 = Ret (ok, ct) /\
    Z.of_nat (length ct)
    = Z.of_nat (length vchPlaintext) + crypto_secretbox_MACBYTES.
Proof.
  intros Hset Hlen. unfold Encrypt. rewrite Hset. simpl negb. cbv iota.
  unfold crypto_secretbox_MACBYTES, INT_MAX in *.
  rewrite (to_int_in_range (Z.of_nat _)) by (unfold INT_MAX; lia).
  rewrite to_int_in_range by (unfold INT_MAX; lia).
  rewrite new_vector_nonneg by (unfold INT_MAX; lia). simpl.
  destruct (crypto_secretbox_easy _ _ _ _);
    do 2 eexists; (split; [reflexivity|]);
    rewrite ?store_at_start_length, zeros_length; lia.
Qed.

(** X5: with a master key that has not the fixed size (in particular the
    empty master key of a locked store) [EncryptSecret] and [DecryptSecret]
    return [false] without touching the output buffer and without reaching
    the cipher: they do not throw, whatever the lengths of the data, and
    [DecryptKey] and [DecryptSpendingKey] return [false] leaving the output
    key as it was. *)
Theorem secrets_need_sized_master_key (vMasterKey data out : bytes)
    (nIV : uint256) (pk : CPubKey) (key : CKey) (sk : SpendingKey) :
  length vMasterKey <> WALLET_CRYPTO_KEY_SIZE ->
  EncryptSecret vMasterKey data nIV out = Ret (false, out) /\
  DecryptSecret vMasterKey data nIV out = Ret (false, out) /\
  DecryptKey vMasterKey data pk key = Ret (false, key) /\
  DecryptSpendingKey vMasterKey data pk sk = Ret (false, sk).
Proof.
  intros Hk.
  assert (forall o, DecryptSecret vMasterKey data nIV o = Ret (false, o)) as D.
  { intros o. unfold DecryptSecret. now rewrite (SetKey_wrong_size _ _ _ Hk). }
  split; [| split; [apply D | split]].
  - unfold EncryptSecret. now rewrite (SetKey_wrong_size _ _ _ Hk).
  - unfold DecryptKey, DecryptSecret.
    now rewrite (SetKey_wrong_size _ _ _ Hk).
  - unfold DecryptSpendingKey, DecryptSecret.
    now rewrite (SetKey_wrong_size _ _ _ Hk).
Qed.

End WithCollaborators.
End CrypterMore.

(** * Further properties of the key store *)

Module KeyStoreMore.
Import KeyStore KeyStoreNotions KeyStoreProperties.

Section WithCollaborators.
Context `{Collaborators}.

(** ** Reading in encrypted mode *)

Lemma GetSpendingKey_crypted (s : Store) (address : PaymentAddress)
    (skOut : SpendingKey) :
  fUseCrypto s = true ->
  GetSpendingKey address skOut s =
    match map_find address (mapCryptedSpendingKeys s) with
    | Some vchCryptedSecret =>
        (DecryptSpendingKey (vMasterKey s) vchCryptedSecret address skOut, s)
    | None => (Ret (false, skOut), s)
    end.
Proof.
  intros E. unfold GetSpendingKey, bind, get, IsCrypted. rewrite E. simpl.
  destruct (map_find address (mapCryptedSpendingKeys s)); reflexivity.
Qed.

Lemma GetPubKey_crypted (s : Store) (address : CKeyID) (out : CPubKey) :
  fUseCrypto s = true ->
  GetPubKey address out s =
    match map_find address (mapCryptedKeys s) with
    | Some (vchPubKey, _) => (Ret (true, vchPubKey), s)
    | None => (Ret (false, out), s)
    end.
Proof.
  intros E. unfold GetPubKey, bind, get, IsCrypted. rewrite E. simpl.
  destruct (map_find address (mapCryptedKeys s)) as [[pk ct]|]; reflexivity.
Qed.

Lemma IsLocked_inv (s : Store) :
  IsLocked s = true -> fUseCrypto s = true /\ vMasterKey s = [].
Proof.
  unfold IsLocked, IsCrypted. destruct (fUseCrypto s); simpl; [|discriminate].
  destruct (vMasterKey s); [auto | discriminate].
Qed.

Lemma empty_master_key_not_sized : length (@nil byte) <> WALLET_CRYPTO_KEY_SIZE.
Proof. discriminate. Qed.

Lemma DecryptSecret_unsized_key (mk ct : bytes) (nIV : uint256) (pt : bytes) :
  length mk <> WALLET_CRYPTO_KEY_SIZE ->
  DecryptSecret mk ct nIV pt = Ret (false, pt).
Proof.
  intros Hk. unfold DecryptSecret. now rewrite (SetKey_wrong_size _ _ _ Hk).
Qed.

Lemma EncryptSecret_unsized_key (mk m : bytes) (nIV : uint256) (ct : bytes) :
  length mk <> WALLET_CRYPTO_KEY_SIZE ->
  EncryptSecret mk m nIV ct = Ret (false, ct).
Proof.
  intros Hk. unfold EncryptSecret. now rewrite (SetKey_wrong_size _ _ _ Hk).
Qed.

Lemma GetKey_unsized_master_key (s : Store) (a : CKeyID) (k : CKey) :
  fUseCrypto s = true -> length (vMasterKey s) <> WALLET_CRYPTO_KEY_SIZE ->
  GetKey a k s = (Ret (false, k), s).
Proof.
  intros E Hk. rewrite (GetKey_crypted s a k E).
  destruct (map_find a (mapCryptedKeys s)) as [[pk ct]|]; [|reflexivity].
  unfold DecryptKey. now rewrite (DecryptSecret_unsized_key _ _ _ _ Hk).
Qed.

Lemma GetSpendingKey_unsized_master_key (s : Store) (a : PaymentAddress)
    (sk : SpendingKey) :
  fUseCrypto s = true -> length (vMasterKey s) <> WALLET_CRYPTO_KEY_SIZE ->
  GetSpendingKey a sk s = (Ret (false, sk), s).
Proof.
  intros E Hk. rewrite (GetSpendingKey_crypted s a sk E).
  destruct (map_find a (mapCryptedSpendingKeys s)); [|reflexivity].
  unfold DecryptSpendingKey. now rewrite (DecryptSecret_unsized_key _ _ _ _ Hk).
Qed.

Lemma AddKeyPubKey_locked (s : Store) (key : CKey) (pk : CPubKey) :
  IsLocked s = true -> AddKeyPubKey key pk s = (Ret false, s).
Proof.
  intros L. destruct (IsLocked_inv s L) as [E _].
  now rewrite (AddKeyPubKey_crypted s key pk E), L.
Qed.

Lemma AddSpendingKey_locked (s : Store) (sk : SpendingKey) :
  IsLocked s = true -> AddSpendingKey sk s = (Ret false, s).
Proof.
  intros L. destruct (IsLocked_inv s L) as [E _].
  now rewrite (AddSpendingKey_crypted s sk E), L.
Qed.

(** X6: on a store in encrypted mode, [GetSpendingKey] returns [false],
    the output as it was, when the encrypted map has no record for the
    address.  When it has one, the ciphertext is decrypted under the master
    key with the hash of the address as nonce.  If that returns success
    with a secret of the serialized size, the spending key read from the
    secret is written to the output and the call returns [true] exactly
    when the address of that spending key is the requested address (on a
    mismatch it returns [false] with the output overwritten).  If the
    decryption returns failure or the secret has another size, the call
    returns [false] and leaves the output as it was.  If the ciphertext is
    shorter than the authentication tag and a master key of the fixed size
    is held, the call throws.  The store is unchanged in every case. *)
Theorem GetSpendingKey_in_crypted_mode (s : Store) (address : PaymentAddress)
    (skOut : SpendingKey) :
  fUseCrypto s = true ->
  (map_find address (mapCryptedSpendingKeys s) = None ->
   GetSpendingKey address skOut s = (Ret (false, skOut), s)) /\
  (forall vchCryptedSecret ok vchSecret,
     map_find address (mapCryptedSpendingKeys s) = Some vchCryptedSecret ->
     DecryptSecret (vMasterKey s) vchCryptedSecret
       (PaymentAddress_GetHash address) [] = Ret (ok, vchSecret) ->
     let sk := SpendingKey_unserialize vchSecret in
     (ok = true -> length vchSecret = SerializedSpendingKeySize ->
      GetSpendingKey address skOut s
      = (Ret (bytes_eqb (SpendingKey_address sk) address, sk), s) /\
      (fst (GetSpendingKey address skOut s) = Ret (true, sk)
       <-> SpendingKey_address sk = address) /\
      (SpendingKey_address sk <> address ->
       GetSpendingKey address skOut s = (Ret (false, sk), s))) /\
     (ok = false \/ length vchSecret <> SerializedSpendingKeySize ->
      GetSpendingKey address skOut s = (Ret (false, skOut), s))) /\
  (forall vchCryptedSecret,
     map_find address (mapCryptedSpendingKeys s) = Some vchCryptedSecret ->
     Z.of_nat (length vchCryptedSecret) < crypto_secretbox_MACBYTES ->
     length (vMasterKey s) = WALLET_CRYPTO_KEY_SIZE ->
     GetSpendingKey address skOut s = (Throw, s)).
Proof.
  intros Hc. rewrite (GetSpendingKey_crypted s address skOut Hc).
  split; [| split].
  - now intros ->.
  - intros ct ok secret Found Dec sk. rewrite Found.
    unfold DecryptSpendingKey. rewrite Dec. simpl. split.
    + intros -> Len. rewrite Len, Nat.eqb_refl. simpl. fold sk.
      split; [reflexivity|].
      destruct (bytes_eqb (SpendingKey_address sk) address) eqn:B.
      * apply bytes_eqb_eq in B. split; [now split|]. contradiction.
      * split; [| reflexivity].
        split; [discriminate|].
        intros Eq. apply bytes_eqb_eq in Eq. congruence.
    + intros [-> | Len]; [reflexivity|].
      destruct ok; simpl; [|reflexivity].
      destruct (Nat.eqb_spec (length secret) SerializedSpendingKeySize);
        [contradiction | reflexivity].
  - intros ct Found Short Hk. rewrite Found. unfold DecryptSpendingKey.
    now rewrite (DecryptSecret_short_throws _ ct _ [] Hk Short).
Qed.

(** X7: on a locked store (encrypted mode, no master key held) no secret
    can be read and no key can be added: [GetKey] and [GetSpendingKey]
    return [false] for every identity, present or not and whatever the
    stored ciphertext, leaving the output as it was, and [AddKeyPubKey] and
    [AddSpendingKey] return [false]; none of them throws and the store is
    unchanged. *)
Theorem locked_store_gives_no_secret (s : Store) :
  IsLocked s = true ->
  (forall a k, GetKey a k s = (Ret (false, k), s)) /\
  (forall a sk, GetSpendingKey a sk s = (Ret (false, sk), s)) /\
  (forall key pk, AddKeyPubKey key pk s = (Ret false, s)) /\
  (forall sk, AddSpendingKey sk s = (Ret false, s)).
Proof.
  intros L. destruct (IsLocked_inv s L) as [E MK].
  assert (length (vMasterKey s) <> WALLET_CRYPTO_KEY_SIZE) as Hk
    by (rewrite MK; apply empty_master_key_not_sized).
  split; [| split; [| split]].
  - intros a k. now apply GetKey_unsized_master_key.
  - intros a sk. now apply GetSpendingKey_unsized_master_key.
  - intros key pk. now apply AddKeyPubKey_locked.
  - intros sk. now apply AddSpendingKey_locked.
Qed.

(** ** Loading encrypted records *)

Lemma map_find_assign_other {V} (k k' : bytes) (v : V) (m : std_map V) :
  k' <> k -> map_find k' (map_assign k v m) = map_find k' m.
Proof.
  intros N.
  assert (bytes_eqb k' k = false) as F.
  { destruct (bytes_eqb k' k) eqn:E; [|reflexivity].
    apply bytes_eqb_eq in E. contradiction. }
  induction m as [|[k0 v0] r IH]; simpl.
  - now rewrite F.
  - destruct (bytes_ltb k k0); simpl; [now rewrite F|].
    destruct (bytes_eqb k k0) eqn:E; simpl.
    + apply bytes_eqb_eq in E. subst k0. now rewrite F.
    + now rewrite IH.
Qed.

Lemma AddCryptedKey_accepted (s : Store) (pk : CPubKey) (ct : bytes) :
  fst (SetCrypted s) = Ret true ->
  AddCryptedKey pk ct s
  = (Ret true,
     set_mapCryptedKeys
       (map_assign (PubKey_GetID pk) (pk, ct) (mapCryptedKeys s))
       (set_fUseCrypto true s)).
Proof.
  intros A. destruct (SetCrypted_cases s) as [[E _]|E]; rewrite E in A;
    [discriminate|].
  unfold AddCryptedKey, bind. now rewrite E.
Qed.

Lemma AddCryptedKey_refused (s : Store) (pk : CPubKey) (ct : bytes) :
  fst (SetCrypted s) = Ret false -> AddCryptedKey pk ct s = (Ret false, s).
Proof.
  intros A. destruct (SetCrypted_cases s) as [[E _]|E]; rewrite E in A;
    [|discriminate].
  unfold AddCryptedKey, bind. now rewrite E.
Qed.

(** X8: [AddCryptedKey] is accepted exactly when [SetCrypted] succeeds (the
    store is in encrypted mode or is an empty plain store) and needs no
    master key; the record is then found under the identity of its public
    key, where [GetPubKey] returns that public key whether the store is
    locked or not, the records of other identities are as before, and the
    master key is untouched.  When [SetCrypted] refuses (a plain store
    holding plaintext keys) the call returns [false] and changes
    nothing. *)
Theorem AddCryptedKey_then_GetPubKey (s : Store) (pk : CPubKey) (ct : bytes)
    (out : CPubKey) :
  (fst (SetCrypted s) = Ret true ->
   let s' := snd (AddCryptedKey pk ct s) in
   fst (AddCryptedKey pk ct s) = Ret true /\
   map_find (PubKey_GetID pk) (mapCryptedKeys s') = Some (pk, ct) /\
   GetPubKey (PubKey_GetID pk) out s' = (Ret (true, pk), s') /\
   (forall a, a <> PubKey_GetID pk ->
      map_find a (mapCryptedKeys s') = map_find a (mapCryptedKeys s)) /\
   vMasterKey s' = vMasterKey s) /\
  (fst (SetCrypted s) = Ret false -> AddCryptedKey pk ct s = (Ret false, s)).
Proof.
  split; [| apply AddCryptedKey_refused].
  intros A s'. unfold s'. rewrite (AddCryptedKey_accepted s pk ct A). simpl.
  split; [reflexivity|].
  split; [apply map_find_assign|].
  split; [| split; [|reflexivity]].
  - rewrite GetPubKey_crypted by reflexivity. simpl.
    now rewrite map_find_assign.
  - intros a Ne. now apply map_find_assign_other.
Qed.

(** ** Lock and Unlock at the edges *)

(** X9: whenever [SetCrypted] succeeds (encrypted mode, or an empty plain
    store) [Lock] returns [true], sends one notification and leaves the
    store locked with its encrypted records as they were; after it
    [GetKey] returns [false] for every identity until a later unlock. *)
Theorem Lock_then_locked (s : Store) :
  fst (SetCrypted s) = Ret true ->
  fst (Lock s) = Ret true /\
  IsLocked (snd (Lock s)) = true /\
  nStatusChanged (snd (Lock s)) = S (nStatusChanged s) /\
  mapCryptedKeys (snd (Lock s)) = mapCryptedKeys s /\
  mapCryptedSpendingKeys (snd (Lock s)) = mapCryptedSpendingKeys s /\
  (forall a k, GetKey a k (snd (Lock s)) = (Ret (false, k), snd (Lock s))).
Proof.
  intros A. destruct (SetCrypted_cases s) as [[E _]|E]; rewrite E in A;
    [discriminate|].
  rewrite (Lock_after_SetCrypted s _ E). simpl.
  repeat split.
  intros a k. apply GetKey_unsized_master_key; [reflexivity|].
  apply empty_master_key_not_sized.
Qed.

(** X10: [Unlock] on a store in plain mode never succeeds.  With a
    plaintext key or spending key in the store it returns [false] and
    changes nothing; on an empty plain store with no encrypted record it
    also returns [false], but the call has switched the store to encrypted
    mode, and no later sequence of operations switches it back. *)
Theorem Unlock_plain_store (s : Store) (mk : CKeyingMaterial) :
  fUseCrypto s = false ->
  (mapKeys s <> [] \/ mapSpendingKeys s <> [] ->
   Unlock mk s = (Ret false, s)) /\
  (mapKeys s = [] -> mapSpendingKeys s = [] ->
   mapCryptedKeys s = [] -> mapCryptedSpendingKeys s = [] ->
   Unlock mk s = (Ret false, set_fUseCrypto true s) /\
   forall os, fUseCrypto (run_ops os (snd (Unlock mk s))) = true).
Proof.
  intros Plain. split.
  - intros N. apply Unlock_not_crypted. now apply SetCrypted_plain_nonempty.
  - intros E1 E2 E3 E4.
    assert (Unlock mk s = (Ret false, set_fUseCrypto true s)) as U.
    { rewrite (Unlock_decision s _ mk scan_start
                 (SetCrypted_plain_empty s Plain E1 E2)); [reflexivity|].
      rewrite Unlock_scan_mode_flag. unfold Unlock_scan. now rewrite E3, E4. }
    split; [exact U|]. intros os. rewrite U. now apply crypted_mode_kept.
Qed.

(** ** Unlocking with the key of the records *)

Lemma scan_all_succeed {E} (decrypt : bytes * E -> outcome bool)
    (fChecked : bool) (entries : list (bytes * E)) :
  Forall (fun e => decrypt e = Ret true) entries ->
  forall st, exists st',
    scan decrypt fChecked entries st = Ret st' /\
    keyPass st' = keyPass st || negb (map_empty entries) /\
    keyFail st' = keyFail st.
Proof.
  induction 1 as [|e rest D _ IH]; simpl; intros st.
  - exists st. now rewrite orb_false_r.
  - rewrite D. simpl. rewrite orb_true_r. destruct fChecked.
    + eexists. now split.
    + destruct (IH (mkScan true (keyFail st) (tried st ++ [(fst e, true)])))
        as (st' & R & P & F).
      exists st'. split; [exact R|]. now split.
Qed.

Lemma scan_unchecked_all_succeed {E} (decrypt : bytes * E -> outcome bool)
    (entries : list (bytes * E)) :
  forall st st', scan decrypt false entries st = Ret st' ->
    keyFail st' = false ->
    Forall (fun e => decrypt e = Ret true) entries.
Proof.
  induction entries as [|e rest IH]; simpl; intros st st' R F.
  - constructor.
  - destruct (decrypt e) as [[|]| |] eqn:D; simpl in R; try discriminate.
    + constructor; [exact D | eauto].
    + inversion R; subst. discriminate.
Qed.

Lemma returns_true_fst {A} (o : outcome (bool * A)) :
  obind o (fun r => Ret (fst r)) = Ret true <-> exists a, o = Ret (true, a).
Proof.
  destruct o as [[b a]| |]; simpl; split.
  - intros E. inversion E. now exists a.
  - intros [a' E]. now inversion E.
  - discriminate.
  - intros [a E]. discriminate.
  - discriminate.
  - intros [a E]. discriminate.
Qed.

Lemma Unlock_matching_key (s : Store) (mk : CKeyingMaterial) :
  fst (SetCrypted s) = Ret true ->
  records_decrypt mk s ->
  mapCryptedKeys s <> [] \/ mapCryptedSpendingKeys s <> [] ->
  Unlock mk s = (Ret true, unlocked_with mk (set_fUseCrypto true s)).
Proof.
  intros A [D1 D2] NE.
  destruct (SetCrypted_cases s) as [[E _]|E]; rewrite E in A; [discriminate|].
  assert (exists st, Unlock_scan s mk = Ret st /\
                     keyPass st = true /\ keyFail st = false)
    as (st & R & P & F).
  { unfold Unlock_scan.
    match goal with
    | |- exists st, obind (scan ?d ?c ?l ?i) _ = _ /\ _ =>
        destruct (scan_all_succeed d c l) with (st := i) as (st1 & R1 & P1 & F1)
    end.
    { eapply Forall_impl; [| exact D1]. intros mi. apply returns_true_fst. }
    rewrite R1. simpl.
    match goal with
    | |- exists st, scan ?d ?c ?l ?i = _ /\ _ =>
        destruct (scan_all_succeed d c l) with (st := i) as (st2 & R2 & P2 & F2)
    end.
    { eapply Forall_impl; [| exact D2]. intros mi. apply returns_true_fst. }
    exists st2. split; [exact R2|]. rewrite P2, F2, P1, F1. simpl.
    split; [|reflexivity].
    destruct (mapCryptedKeys s); [|reflexivity].
    destruct (mapCryptedSpendingKeys s); [|reflexivity].
    now destruct NE. }
  rewrite (Unlock_decision s _ mk st E) by now rewrite Unlock_scan_mode_flag.
  now rewrite P, F.
Qed.


(** X11: when [SetCrypted] succeeds, the store holds at least one encrypted
    record and every encrypted record decrypts under the candidate key,
    [Unlock] returns [true]: the candidate becomes the master key, the
    thorough-check flag is set and one notification is sent, the records
    being left as they are and the store coming out unlocked.  This holds whether the scan is exhaustive or
    a spot check. *)
Theorem Unlock_with_matching_key (s : Store) (mk : CKeyingMaterial) :
  fst (SetCrypted s) = Ret true ->
  records_decrypt mk s ->
  mapCryptedKeys s <> [] \/ mapCryptedSpendingKeys s <> [] ->
  let s' := snd (Unlock mk s) in
  fst (Unlock mk s) = Ret true /\
  vMasterKey s' = mk /\
  fDecryptionThoroughlyChecked s' = true /\
  nStatusChanged s' = S (nStatusChanged s) /\
  mapCryptedKeys s' = mapCryptedKeys s /\
  mapCryptedSpendingKeys s' = mapCryptedSpendingKeys s /\
  (length mk = WALLET_CRYPTO_KEY_SIZE -> IsLocked s' = false).
Proof.
  intros A D NE s'. unfold s'. rewrite (Unlock_matching_key s mk A D NE).
  simpl. repeat split. intros L.
  unfold IsLocked, IsCrypted. simpl. destruct mk; [discriminate | reflexivity].
Qed.

(** X12: a successful [Unlock] on a store whose thorough-check flag is not
    yet set has decrypted every record: each transparent-key record and
    each spending-key record of the store decrypts under the adopted
    master key. *)
Theorem first_Unlock_checks_every_record (s : Store) (mk : CKeyingMaterial) :
  fDecryptionThoroughlyChecked s = false ->
  fst (Unlock mk s) = Ret true ->
  records_decrypt mk s /\ vMasterKey (snd (Unlock mk s)) = mk.
Proof.
  intros Off U.
  destruct (Unlock_true_inv s mk U) as (st & R & _ & F & E).
  split; [| now rewrite E].
  unfold Unlock_scan in R. rewrite Off in R.
  match type of R with obind ?first _ = _ => destruct first as [st1| |] eqn:R1 end;
    simpl in R; try discriminate.
  assert (keyFail st1 = false) as F1.
  { destruct (keyFail st1) eqn:X; [|reflexivity].
    rewrite (scan_keyFail_kept _ _ _ _ _ R X) in F. discriminate. }
  split.
  - eapply Forall_impl; [| exact (scan_unchecked_all_succeed _ _ _ _ R1 F1)].
    intros mi. apply returns_true_fst.
  - eapply Forall_impl; [| exact (scan_unchecked_all_succeed _ _ _ _ R F)].
    intros mi. apply returns_true_fst.
Qed.

(** ** Adding a key and reading it back *)

Lemma secret_roundtrip (mk m : bytes) (nIV : uint256) (ct0 : bytes) :
  secretbox_contract ->
  length mk = WALLET_CRYPTO_KEY_SIZE ->
  Z.of_nat (length m) + crypto_secretbox_MACBYTES <= INT_MAX ->
  exists ct,
    EncryptSecret mk m nIV ct0 = Ret (true, ct) /\
    forall pt0, DecryptSecret mk ct nIV pt0 = Ret (true, m).
Proof.
  intros Law Ek Hm.
  pose proof (iv_of_uint256_length nIV) as Ei.
  destruct (Encrypt_Decrypt_ready mk (iv_of_uint256 nIV) m ct0 [] Law Ek Ei Hm)
    as (ct & EE & _ & _).
  exists ct. unfold EncryptSecret, DecryptSecret.
  rewrite (SetKey_fixed_sizes Crypter.CCrypter_new mk _ Ek Ei).
  simpl negb. cbv iota. split; [exact EE|].
  intros pt0.
  destruct (Encrypt_Decrypt_ready mk (iv_of_uint256 nIV) m ct0 pt0 Law Ek Ei Hm)
    as (ct' & EE' & _ & ED').
  rewrite EE in EE'. inversion EE'; subst ct'. exact ED'.
Qed.

Lemma master_key_sized_not_locked (s : Store) :
  length (vMasterKey s) = WALLET_CRYPTO_KEY_SIZE -> IsLocked s = false.
Proof.
  unfold IsLocked. destruct (negb (IsCrypted s)); [reflexivity|].
  destruct (vMasterKey s); [discriminate | reflexivity].
Qed.

Lemma DecryptKey_of_encrypted_secret (mk : bytes) (key keyOut : CKey) (ct : bytes) :
  pubkey_form_contract ->
  length (key_secret key) = 32%nat ->
  (forall pt0, DecryptSecret mk ct (PubKey_GetHash (CKey_GetPubKey key)) pt0
               = Ret (true, key_secret key)) ->
  DecryptKey mk ct (CKey_GetPubKey key) keyOut = Ret (true, key).
Proof.
  intros Form L D. unfold DecryptKey. rewrite D. simpl.
  rewrite L. simpl. unfold CKey_Set, CKey_VerifyPubKey, CKey_GetPubKey. simpl.
  rewrite (Form _ _ L), bytes_eqb_refl. now destruct key.
Qed.

(** X13: on an unlocked store in encrypted mode (master key of the fixed
    size), under the contracts of the box and of the public-key form,
    [AddKeyPubKey] of a key with a 32-byte secret together with its own
    public key returns [true], and [GetKey] for the identity of that public
    key then returns [true] with exactly the key that was added. *)
Theorem AddKeyPubKey_then_GetKey (s : Store) (key keyOut : CKey) :
  secretbox_contract ->
  pubkey_form_contract ->
  fUseCrypto s = true ->
  length (vMasterKey s) = WALLET_CRYPTO_KEY_SIZE ->
  length (key_secret key) = 32%nat ->
  let pubkey := CKey_GetPubKey key in
  let s' := snd (AddKeyPubKey key pubkey s) in
  fst (AddKeyPubKey key pubkey s) = Ret true /\
  GetKey (PubKey_GetID pubkey) keyOut s' = (Ret (true, key), s').
Proof.
  intros Law Form Hc Hk Hs pubkey s'.
  destruct (secret_roundtrip (vMasterKey s) (key_secret key)
              (PubKey_GetHash pubkey) [] Law Hk) as (ct & Enc & Dec).
  { rewrite Hs. unfold crypto_secretbox_MACBYTES, INT_MAX. lia. }
  assert (AddKeyPubKey key pubkey s
          = (Ret true,
             set_mapCryptedKeys
               (map_assign (PubKey_GetID pubkey) (pubkey, ct) (mapCryptedKeys s))
               s)) as Add.
  { rewrite (AddKeyPubKey_crypted s key pubkey Hc).
    now rewrite (master_key_sized_not_locked s Hk), Enc. }
  unfold s'. rewrite Add. simpl. split; [reflexivity|].
  rewrite GetKey_crypted by exact Hc.
  cbn [mapCryptedKeys vMasterKey set_mapCryptedKeys]. rewrite map_find_assign.
  unfold pubkey.
  now rewrite (DecryptKey_of_encrypted_secret _ key keyOut ct Form Hs Dec).
Qed.

(** X14: likewise for spending keys: on an unlocked store in encrypted
    mode, under the contracts of the box and of the serialization, for a
    spending key whose serialization has the expected size,
    [AddSpendingKey] returns [true], caches the viewing key unless the
    address already has one, and [GetSpendingKey] for the address of the
    key then returns [true] with exactly that spending key. *)
Theorem AddSpendingKey_then_GetSpendingKey (s : Store) (sk skOut : SpendingKey) :
  secretbox_contract ->
  spending_key_contract ->
  fUseCrypto s = true ->
  length (vMasterKey s) = WALLET_CRYPTO_KEY_SIZE ->
  length (SpendingKey_serialize sk) = SerializedSpendingKeySize ->
  Z.of_nat SerializedSpendingKeySize + crypto_secretbox_MACBYTES <= INT_MAX ->
  let address := SpendingKey_address sk in
  let s' := snd (AddSpendingKey sk s) in
  fst (AddSpendingKey sk s) = Ret true /\
  GetSpendingKey address skOut s' = (Ret (true, sk), s') /\
  mapNoteDecryptors s'
  = map_insert address (SpendingKey_viewing_key sk) (mapNoteDecryptors s).
Proof.
  intros Law Ser Hc Hk Hs Hb address s'.
  destruct (secret_roundtrip (vMasterKey s) (SpendingKey_serialize sk)
              (PaymentAddress_GetHash address) [] Law Hk) as (ct & Enc & Dec).
  { now rewrite Hs. }
  unfold s'. rewrite (AddSpendingKey_crypted s sk Hc).
  rewrite (master_key_sized_not_locked s Hk). fold address. rewrite Enc. simpl.
  split; [reflexivity|]. split; [|reflexivity].
  rewrite GetSpendingKey_crypted by exact Hc.
  cbn [mapCryptedSpendingKeys vMasterKey set_mapCryptedSpendingKeys
       set_mapNoteDecryptors].
  rewrite map_find_assign.
  unfold DecryptSpendingKey. rewrite Dec. simpl.
  rewrite Hs, Nat.eqb_refl. simpl. rewrite Ser.
  fold address. now rewrite bytes_eqb_refl.
Qed.

(** ** What each operation leaves alone *)

(** The bodies of the member functions, down to the assignments. *)
Ltac open_operations :=
  cbv beta zeta delta
    [Lock Unlock AddKeyPubKey AddCryptedKey GetKey GetPubKey AddSpendingKey
     AddCryptedSpendingKey GetSpendingKey SetCrypted NotifyStatusChanged
     CBasicKeyStore_AddKeyPubKey CBasicKeyStore_GetKey CKeyStore_GetPubKey
     CBasicKeyStore_AddSpendingKey CBasicKeyStore_GetSpendingKey].

Ltac frame := open_operations; preserve_field.

Lemma EncryptKeys_keeps_lock_state (mk0 : bytes) (n0 : nat) (b0 : bool)
    (mk : CKeyingMaterial) :
  preserves (fun s => vMasterKey s = mk0 /\ nStatusChanged s = n0 /\
                      fDecryptionThoroughlyChecked s = b0)
    (EncryptKeys mk).
Proof.
  assert (forall entries,
            preserves (fun s => vMasterKey s = mk0 /\ nStatusChanged s = n0 /\
                                fDecryptionThoroughlyChecked s = b0)
              (EncryptKeys_keys mk entries)) as L1
    by (induction entries as [|e rest IH]; simpl; frame).
  assert (forall entries,
            preserves (fun s => vMasterKey s = mk0 /\ nStatusChanged s = n0 /\
                                fDecryptionThoroughlyChecked s = b0)
              (EncryptKeys_spending mk entries)) as L2
    by (induction entries as [|e rest IH]; simpl; frame).
  unfold EncryptKeys. frame.
Qed.

Lemma getter_keeps_store (o : op) (s : Store) :
  is_getter o = true -> run_op o s = s.
Proof.
  intros G.
  assert (forall A (m : M A), preserves (fun s' => s' = s) m ->
                              snd (m s) = s) as Use
    by (intros A m Pm; now apply Pm).
  destruct o; try discriminate G; simpl; apply Use; frame.
Qed.

(** X15: the getters ([GetKey], [GetPubKey], [GetSpendingKey]) never change
    the store.  The master key, the thorough-check flag and the count of
    notifications are changed by [Lock] and [Unlock] only.  [Lock] and
    [Unlock] change none of the key maps: the plaintext records, the
    encrypted records and the cached note decryptors are the same before
    and after, so they survive any lock/unlock cycle. *)
Theorem operations_frame (o : op) (s : Store) :
  (is_getter o = true -> run_op o s = s) /\
  (is_lock_or_unlock o = false ->
   vMasterKey (run_op o s) = vMasterKey s /\
   nStatusChanged (run_op o s) = nStatusChanged s /\
   fDecryptionThoroughlyChecked (run_op o s) = fDecryptionThoroughlyChecked s) /\
  (is_lock_or_unlock o = true ->
   mapKeys (run_op o s) = mapKeys s /\
   mapSpendingKeys (run_op o s) = mapSpendingKeys s /\
   mapNoteDecryptors (run_op o s) = mapNoteDecryptors s /\
   mapCryptedKeys (run_op o s) = mapCryptedKeys s /\
   mapCryptedSpendingKeys (run_op o s) = mapCryptedSpendingKeys s).
Proof.
  split; [apply getter_keeps_store | split].
  - intros NL.
    assert (forall A (m : M A),
              preserves (fun s' => vMasterKey s' = vMasterKey s /\
                                   nStatusChanged s' = nStatusChanged s /\
                                   fDecryptionThoroughlyChecked s'
                                   = fDecryptionThoroughlyChecked s) m ->
              vMasterKey (snd (m s)) = vMasterKey s /\
              nStatusChanged (snd (m s)) = nStatusChanged s /\
              fDecryptionThoroughlyChecked (snd (m s))
              = fDecryptionThoroughlyChecked s) as Use
      by (intros A m Pm; now apply Pm).
    destruct o; try discriminate NL; simpl; apply Use;
      try apply EncryptKeys_keeps_lock_state; frame.
  - intros L.
    assert (forall A (m : M A),
              preserves (fun s' => mapKeys s' = mapKeys s /\
                                   mapSpendingKeys s' = mapSpendingKeys s /\
                                   mapNoteDecryptors s' = mapNoteDecryptors s /\
                                   mapCryptedKeys s' = mapCryptedKeys s /\
                                   mapCryptedSpendingKeys s'
                                   = mapCryptedSpendingKeys s) m ->
              mapKeys (snd (m s)) = mapKeys s /\
              mapSpendingKeys (snd (m s)) = mapSpendingKeys s /\
              mapNoteDecryptors (snd (m s)) = mapNoteDecryptors s /\
              mapCryptedKeys (snd (m s)) = mapCryptedKeys s /\
              mapCryptedSpendingKeys (snd (m s)) = mapCryptedSpendingKeys s)
      as Use by (intros A m Pm; now apply Pm).
    destruct o; try discriminate L; simpl; apply Use; frame.
Qed.

(** ** Migration with [EncryptKeys] *)

Lemma EncryptKeys_plain (s : Store) (mk : CKeyingMaterial) :
  fUseCrypto s = false -> mapCryptedKeys s = [] ->
  EncryptKeys mk s =
    match EncryptKeys_keys mk (mapKeys s) (set_fUseCrypto true s) with
    | (Ret true, s2) =>
        match EncryptKeys_spending mk (mapSpendingKeys s) (set_mapKeys [] s2) with
        | (Ret true, s4) => (Ret true, set_mapSpendingKeys [] s4)
        | (Ret false, s4) => (Ret false, s4)
        | (Throw, s4) => (Throw, s4)
        | (Abort, s4) => (Abort, s4)
        end
    | (Ret false, s2) => (Ret false, s2)
    | (Throw, s2) => (Throw, s2)
    | (Abort, s2) => (Abort, s2)
    end.
Proof.
  intros E1 E2. unfold EncryptKeys, bind, get, IsCrypted. rewrite E1, E2. simpl.
  destruct (EncryptKeys_keys mk (mapKeys s) (set_fUseCrypto true s))
    as [[[|]| |] s2]; simpl; try reflexivity.
  destruct (EncryptKeys_spending mk (mapSpendingKeys s) (set_mapKeys [] s2))
    as [[[|]| |] s4]; reflexivity.
Qed.

(** X16: [EncryptKeys] with a master key that has not the fixed size, on a
    plain store holding a plaintext key or spending key, returns [false]
    but has already switched the store to encrypted mode: the plaintext
    records are still in their maps, nothing was encrypted, no key of the
    store can be read with [GetKey] any more, and no later [EncryptKeys]
    is accepted (the migration cannot be retried). *)
Theorem EncryptKeys_unsized_master_key (s : Store) (mk : CKeyingMaterial) :
  fUseCrypto s = false ->
  mapCryptedKeys s = [] ->
  length mk <> WALLET_CRYPTO_KEY_SIZE ->
  mapKeys s <> [] \/ mapSpendingKeys s <> [] ->
  let s' := snd (EncryptKeys mk s) in
  fst (EncryptKeys mk s) = Ret false /\
  fUseCrypto s' = true /\
  mapKeys s' = mapKeys s /\
  mapSpendingKeys s' = mapSpendingKeys s /\
  mapCryptedKeys s' = [] /\
  mapCryptedSpendingKeys s' = mapCryptedSpendingKeys s /\
  (forall a k, GetKey a k s' = (Ret (false, k), s')) /\
  (forall mk', EncryptKeys mk' s' = (Ret false, s')).
Proof.
  intros E1 E2 Hk NE s'.
  assert (fst (EncryptKeys mk s) = Ret false /\
          fUseCrypto s' = true /\ mapKeys s' = mapKeys s /\
          mapSpendingKeys s' = mapSpendingKeys s /\
          mapCryptedKeys s' = [] /\
          mapCryptedSpendingKeys s' = mapCryptedSpendingKeys s)
    as (R & C & K1 & K2 & K3 & K4).
  { unfold s'. rewrite (EncryptKeys_plain s mk E1 E2).
    destruct (mapKeys s) as [|e rest] eqn:MK.
    - destruct (mapSpendingKeys s) as [|e rest] eqn:MS; [now destruct NE|].
      simpl. unfold bind, lift.
      rewrite (EncryptSecret_unsized_key _ _ _ _ Hk). simpl.
      rewrite ?MK, ?MS, ?E2. now repeat split.
    - simpl. unfold bind, lift.
      rewrite (EncryptSecret_unsized_key _ _ _ _ Hk). simpl.
      rewrite ?MK, ?MS, ?E2. now repeat split. }
  repeat split; try assumption.
  - intros a k. rewrite (GetKey_crypted s' a k C). now rewrite K3.
  - intros mk'. now apply EncryptKeys_crypted.
Qed.

Lemma Forall_map_assign {V} (P : bytes * V -> Prop) (k : bytes) (v : V)
    (m : std_map V) :
  P (k, v) -> Forall P m -> Forall P (map_assign k v m).
Proof.
  intros Pk. induction 1 as [|[k' v'] r Px Pr IH]; simpl.
  - now constructor.
  - destruct (bytes_ltb k k'); [now repeat constructor|].
    destruct (bytes_eqb k k'); now constructor.
Qed.

Lemma map_assign_nonempty {V} (k : bytes) (v : V) (m : std_map V) :
  map_assign k v m <> [].
Proof.
  destruct m as [|[k' v'] r]; simpl; [discriminate|].
  destruct (bytes_ltb k k'); [discriminate|].
  destruct (bytes_eqb k k'); discriminate.
Qed.

Lemma DecryptSpendingKey_of_encrypted_secret (mk : bytes) (sk skOut : SpendingKey)
    (ct : bytes) :
  spending_key_contract ->
  length (SpendingKey_serialize sk) = SerializedSpendingKeySize ->
  (forall pt0,
     DecryptSecret mk ct (PaymentAddress_GetHash (SpendingKey_address sk)) pt0
     = Ret (true, SpendingKey_serialize sk)) ->
  DecryptSpendingKey mk ct (SpendingKey_address sk) skOut = Ret (true, sk).
Proof.
  intros Ser L D. unfold DecryptSpendingKey. rewrite D. simpl.
  rewrite L, Nat.eqb_refl. simpl. now rewrite Ser, bytes_eqb_refl.
Qed.

Lemma EncryptKeys_keys_succeeds (mk : CKeyingMaterial)
    (entries : list (CKeyID * CKey)) :
  secretbox_contract -> pubkey_form_contract ->
  length mk = WALLET_CRYPTO_KEY_SIZE ->
  Forall (fun mKey => length (key_secret (snd mKey)) = 32%nat) entries ->
  forall s1, fUseCrypto s1 = true ->
    Forall (fun mi => exists key,
              DecryptKey mk (snd (snd mi)) (fst (snd mi)) CKey_new
              = Ret (true, key)) (mapCryptedKeys s1) ->
    exists m,
      EncryptKeys_keys mk entries s1 = (Ret true, set_mapCryptedKeys m s1) /\
      Forall (fun mi => exists key,
                DecryptKey mk (snd (snd mi)) (fst (snd mi)) CKey_new
                = Ret (true, key)) m /\
      (mapCryptedKeys s1 <> [] \/ entries <> [] -> m <> []).
Proof.
  intros Law Form Hk. induction 1 as [|[id key] rest Hs _ IH]; intros s1 Hc G.
  - exists (mapCryptedKeys s1). simpl. split; [| split; [exact G|]].
    + unfold ret. f_equal. now destruct s1.
    + intros [N|N]; [exact N | contradiction].
  - simpl in Hs.
    destruct (secret_roundtrip mk (key_secret key)
                (PubKey_GetHash (CKey_GetPubKey key)) [] Law Hk)
      as (ct & Enc & Dec).
    { rewrite Hs. unfold crypto_secretbox_MACBYTES, INT_MAX. lia. }
    destruct (IH (set_mapCryptedKeys
                    (map_assign (PubKey_GetID (CKey_GetPubKey key))
                       (CKey_GetPubKey key, ct) (mapCryptedKeys s1)) s1))
      as (m & R & Gm & NEm).
    { exact Hc. }
    { simpl. apply Forall_map_assign; [|exact G].
      exists key. simpl.
      now apply DecryptKey_of_encrypted_secret. }
    exists m. split; [| split; [exact Gm|]].
    + simpl. unfold bind at 1, lift. rewrite Enc. simpl.
      unfold bind at 1. rewrite (AddCryptedKey_crypted s1 _ ct Hc). simpl.
      exact R.
    + intros _. apply NEm. left. simpl. apply map_assign_nonempty.
Qed.

Lemma EncryptKeys_spending_succeeds (mk : CKeyingMaterial)
    (entries : list (PaymentAddress * SpendingKey)) :
  secretbox_contract -> spending_key_contract ->
  length mk = WALLET_CRYPTO_KEY_SIZE ->
  Forall (fun mSk =>
            length (SpendingKey_serialize (snd mSk)) = SerializedSpendingKeySize /\
            Z.of_nat SerializedSpendingKeySize + crypto_secretbox_MACBYTES
            <= INT_MAX) entries ->
  forall s1, fUseCrypto s1 = true ->
    Forall (fun skmi => exists sk,
              DecryptSpendingKey mk (snd skmi) (fst skmi) [] = Ret (true, sk))
      (mapCryptedSpendingKeys s1) ->
    exists m nd,
      EncryptKeys_spending mk entries s1
      = (Ret true, set_mapNoteDecryptors nd (set_mapCryptedSpendingKeys m s1)) /\
      Forall (fun skmi => exists sk,
                DecryptSpendingKey mk (snd skmi) (fst skmi) [] = Ret (true, sk))
        m /\
      (mapCryptedSpendingKeys s1 <> [] \/ entries <> [] -> m <> []).
Proof.
  intros Law Ser Hk. induction 1 as [|[a sk] rest [Hs Hb] _ IH]; intros s1 Hc G.
  - exists (mapCryptedSpendingKeys s1), (mapNoteDecryptors s1). simpl.
    split; [| split; [exact G|]].
    + unfold ret. f_equal. now destruct s1.
    + intros [N|N]; [exact N | contradiction].
  - simpl in Hs.
    destruct (secret_roundtrip mk (SpendingKey_serialize sk)
                (PaymentAddress_GetHash (SpendingKey_address sk)) [] Law Hk)
      as (ct & Enc & Dec).
    { now rewrite Hs. }
    destruct (IH (set_mapNoteDecryptors
                    (map_insert (SpendingKey_address sk)
                       (SpendingKey_viewing_key sk) (mapNoteDecryptors s1))
                    (set_mapCryptedSpendingKeys
                       (map_assign (SpendingKey_address sk) ct
                          (mapCryptedSpendingKeys s1)) s1)))
      as (m & nd & R & Gm & NEm).
    { exact Hc. }
    { simpl. apply Forall_map_assign; [|exact G].
      exists sk. simpl.
      now apply DecryptSpendingKey_of_encrypted_secret. }
    exists m, nd. split; [| split; [exact Gm|]].
    + simpl. unfold bind at 1, lift. rewrite Enc. simpl.
      unfold bind at 1. rewrite (AddCryptedSpendingKey_crypted s1 _ _ ct Hc).
      simpl. exact R.
    + intros _. apply NEm. left. simpl. apply map_assign_nonempty.
Qed.

(** X17: on a plain store without encrypted records whose plaintext keys
    are well formed (32-byte secrets, spending keys of the serialized
    size), under the contracts of the box, of the public-key form and of
    the serialization, [EncryptKeys] with a master key of the fixed size
    returns [true]: both plaintext maps are emptied, every plaintext key
    has been replaced by a record that decrypts under that master key, and
    the master key itself is not kept (the store holds the master key it
    held before).  If the store held at least one key, a following
    [Unlock] with the same master key returns [true] and adopts it. *)
Theorem EncryptKeys_then_Unlock (s : Store) (mk : CKeyingMaterial) :
  secretbox_contract -> pubkey_form_contract -> spending_key_contract ->
  fUseCrypto s = false ->
  mapCryptedKeys s = [] -> mapCryptedSpendingKeys s = [] ->
  length mk = WALLET_CRYPTO_KEY_SIZE ->
  plain_keys_sized s ->
  let s' := snd (EncryptKeys mk s) in
  fst (EncryptKeys mk s) = Ret true /\
  mapKeys s' = [] /\ mapSpendingKeys s' = [] /\
  fUseCrypto s' = true /\
  vMasterKey s' = vMasterKey s /\
  records_decrypt mk s' /\
  (mapKeys s <> [] \/ mapSpendingKeys s <> [] ->
   fst (Unlock mk s') = Ret true /\ vMasterKey (snd (Unlock mk s')) = mk).
Proof.
  intros Law Form Ser E1 E2 E3 Hk [S1 S2] s'.
  destruct (EncryptKeys_keys_succeeds mk (mapKeys s) Law Form Hk S1
              (set_fUseCrypto true s) eq_refl)
    as (m1 & R1 & G1 & NE1).
  { simpl. rewrite E2. constructor. }
  destruct (EncryptKeys_spending_succeeds mk (mapSpendingKeys s) Law Ser Hk S2
              (set_mapKeys [] (set_mapCryptedKeys m1 (set_fUseCrypto true s)))
              eq_refl)
    as (m2 & nd & R2 & G2 & NE2).
  { simpl. rewrite E3. constructor. }
  assert (EncryptKeys mk s
          = (Ret true,
             set_mapSpendingKeys []
               (set_mapNoteDecryptors nd
                  (set_mapCryptedSpendingKeys m2
                     (set_mapKeys []
                        (set_mapCryptedKeys m1 (set_fUseCrypto true s)))))))
    as Run.
  { rewrite (EncryptKeys_plain s mk E1 E2). now rewrite R1, R2. }
  unfold s'. rewrite Run. simpl.
  do 5 (split; [reflexivity|]). split; [now split|].
  intros NE.
  match goal with
  | |- fst (Unlock mk ?t) = _ /\ _ =>
      assert (Unlock mk t = (Ret true, unlocked_with mk (set_fUseCrypto true t)))
        as U
  end.
  { apply Unlock_matching_key.
    - reflexivity.
    - now split.
    - simpl. destruct NE as [N|N].
      + left. apply NE1. now right.
      + right. apply NE2. now right. }
  rewrite U. now split.
Qed.

(** ** Plain mode holds nothing of the encrypted mode *)

Lemma after_SetCrypted {A} (k : bool -> M A) (s : Store) :
  fst (SetCrypted s) = Ret true ->
  bind SetCrypted k s = bind SetCrypted k (set_fUseCrypto true s).
Proof.
  intros Acc. destruct (SetCrypted_cases s) as [[E _]|E]; rewrite E in Acc;
    [discriminate|].
  unfold bind. rewrite E.
  now rewrite (SetCrypted_crypted (set_fUseCrypto true s) eq_refl).
Qed.

Lemma SetCrypted_refused_eq (s : Store) :
  fst (SetCrypted s) = Ret false -> SetCrypted s = (Ret false, s).
Proof.
  intros Ref. destruct (SetCrypted_cases s) as [[E _]|E]; [exact E|].
  rewrite E in Ref. discriminate.
Qed.

Lemma SetCrypted_returns (s : Store) :
  fst (SetCrypted s) = Ret true \/ fst (SetCrypted s) = Ret false.
Proof.
  destruct (SetCrypted_cases s) as [[E _]|E]; rewrite E; auto.
Qed.

Lemma EncryptKeys_leaves_crypted (s : Store) (mk : CKeyingMaterial) :
  fUseCrypto s = false -> mapCryptedKeys s = [] ->
  fUseCrypto (snd (EncryptKeys mk s)) = true.
Proof.
  intros E1 E2. rewrite (EncryptKeys_plain s mk E1 E2).
  pose proof (EncryptKeys_keys_preserves _ crypted_mode_stable mk (mapKeys s)
                (set_fUseCrypto true s) eq_refl) as P1.
  destruct (EncryptKeys_keys mk (mapKeys s) (set_fUseCrypto true s))
    as [[[|]| |] s2]; simpl in *; try exact P1.
  pose proof (EncryptKeys_spending_preserves _ crypted_mode_stable mk
                (mapSpendingKeys s) (set_mapKeys [] s2) P1) as P2.
  destruct (EncryptKeys_spending mk (mapSpendingKeys s) (set_mapKeys [] s2))
    as [[[|]| |] s4]; simpl in *; exact P2.
Qed.

Lemma EncryptKeys_refused_records (s : Store) (mk : CKeyingMaterial) :
  mapCryptedKeys s <> [] -> EncryptKeys mk s = (Ret false, s).
Proof.
  intros N. unfold EncryptKeys, bind, get.
  destruct (mapCryptedKeys s); [contradiction | reflexivity].
Qed.

(** An operation that leaves the store in plain mode found it in plain mode
    and has changed nothing that belongs to the encrypted mode. *)
Lemma run_op_stays_plain (o : op) (s : Store) :
  fUseCrypto (run_op o s) = false ->
  fUseCrypto s = false /\
  mapCryptedKeys (run_op o s) = mapCryptedKeys s /\
  mapCryptedSpendingKeys (run_op o s) = mapCryptedSpendingKeys s /\
  vMasterKey (run_op o s) = vMasterKey s /\
  fDecryptionThoroughlyChecked (run_op o s) = fDecryptionThoroughlyChecked s /\
  nStatusChanged (run_op o s) = nStatusChanged s.
Proof.
  intros After.
  assert (fUseCrypto s = false) as Plain.
  { destruct (fUseCrypto s) eqn:E; [|reflexivity].
    rewrite (run_op_preserves _ crypted_mode_stable o s E) in After.
    discriminate. }
  split; [exact Plain|].
  assert (forall A (m : M A),
            fUseCrypto (snd (m (set_fUseCrypto true s))) = true ->
            fUseCrypto (snd (m s)) = false ->
            m s = m (set_fUseCrypto true s) -> False) as Crypted
    by (intros A m C P E; rewrite E in P; congruence).
  destruct o; simpl in *.
  - destruct (SetCrypted_cases s) as [[E _]|E]; rewrite E in *; simpl in *;
      [now repeat split | discriminate].
  - destruct (SetCrypted_returns s) as [Acc|Ref].
    + exfalso. apply (Crypted _ Lock); [| exact After |].
      * now apply Lock_preserves; [apply crypted_mode_stable|].
      * now apply after_SetCrypted.
    + rewrite (Lock_refused s (SetCrypted_refused_eq s Ref)).
      now repeat split.
  - destruct (SetCrypted_returns s) as [Acc|Ref].
    + exfalso. apply (Crypted _ (Unlock vMasterKeyIn)); [| exact After |].
      * now apply Unlock_preserves; [apply crypted_mode_stable|].
      * now apply after_SetCrypted.
    + rewrite (Unlock_not_crypted s _ (SetCrypted_refused_eq s Ref)).
      now repeat split.
  - unfold AddKeyPubKey, bind, get, IsCrypted in *. rewrite Plain in *.
    simpl in *. now repeat split.
  - destruct (SetCrypted_returns s) as [Acc|Ref].
    + exfalso.
      apply (Crypted _ (AddCryptedKey vchPubKey vchCryptedSecret));
        [| exact After |].
      * now apply AddCryptedKey_preserves; [apply crypted_mode_stable|].
      * now apply after_SetCrypted.
    + rewrite (AddCryptedKey_refused s _ _ Ref). now repeat split.
  - pose proof (getter_keeps_store (OpGetKey address) s eq_refl) as G.
    simpl in G. rewrite G. now repeat split.
  - pose proof (getter_keeps_store (OpGetPubKey address) s eq_refl) as G.
    simpl in G. rewrite G. now repeat split.
  - unfold AddSpendingKey, bind, get, IsCrypted in *. rewrite Plain in *.
    simpl in *. now repeat split.
  - destruct (SetCrypted_returns s) as [Acc|Ref].
    + exfalso.
      apply (Crypted _ (AddCryptedSpendingKey address vk vchCryptedSecret));
        [| exact After |].
      * now apply AddCryptedSpendingKey_preserves; [apply crypted_mode_stable|].
      * now apply after_SetCrypted.
    + unfold AddCryptedSpendingKey, bind.
      rewrite (SetCrypted_refused_eq s Ref). now repeat split.
  - pose proof (getter_keeps_store (OpGetSpendingKey address) s eq_refl) as G.
    simpl in G. rewrite G. now repeat split.
  - destruct (mapCryptedKeys s) eqn:E2.
    + rewrite (EncryptKeys_leaves_crypted s vMasterKeyIn Plain E2) in After.
      discriminate.
    + rewrite (EncryptKeys_refused_records s vMasterKeyIn)
        by (rewrite E2; discriminate).
      simpl. rewrite E2. now repeat split.
Qed.

(** X18: in every store reached from a freshly constructed one by any
    sequence of operations, plain mode means that nothing of the encrypted
    mode is there: no encrypted transparent-key or spending-key record, no
    master key, the thorough-check flag unset and no status notification
    ever sent.  More generally, an operation that leaves a store in plain
    mode found it in plain mode and has changed none of these (encrypted
    records of both kinds, master key, thorough-check flag, count of
    notifications). *)
Theorem plain_mode_is_clean (os : list op) :
  plain_store_clean (run_ops os Store_new) /\
  (forall o s, fUseCrypto (run_op o s) = false ->
     fUseCrypto s = false /\
     mapCryptedKeys (run_op o s) = mapCryptedKeys s /\
     mapCryptedSpendingKeys (run_op o s) = mapCryptedSpendingKeys s /\
     vMasterKey (run_op o s) = vMasterKey s /\
     fDecryptionThoroughlyChecked (run_op o s)
     = fDecryptionThoroughlyChecked s /\
     nStatusChanged (run_op o s) = nStatusChanged s).
Proof.
  split.
  - assert (forall s, plain_store_clean s -> plain_store_clean (run_ops os s))
      as Step.
    { unfold run_ops. induction os as [|o os IH]; simpl; intros s C; [exact C|].
      apply IH. intros After.
      destruct (run_op_stays_plain o s After) as (P & E1 & E2 & E3 & E4 & E5).
      rewrite E1, E2, E3, E4, E5. now apply C. }
    apply Step. intros _. now repeat split.
  - intros o s After. now apply run_op_stays_plain.
Qed.

End WithCollaborators.
End KeyStoreMore.

(** * The maps keep their keys in increasing order *)

Module MapOrder.

Lemma bytes_ltb_irrefl (a : bytes) : bytes_ltb a a = false.
Proof.
  induction a as [|x a IH]; simpl; [reflexivity|].
  now rewrite N.ltb_irrefl, byte_eqb_refl.
Qed.

Lemma bytes_ltb_not_eqb (a b : bytes) :
  bytes_ltb a b = true -> bytes_eqb a b = false.
Proof.
  intros L. destruct (bytes_eqb a b) eqn:E; [|reflexivity].
  apply bytes_eqb_eq in E. subst b. rewrite bytes_ltb_irrefl in L. discriminate.
Qed.

Lemma bytes_ltb_trans (a : bytes) :
  forall b c, bytes_ltb a b = true -> bytes_ltb b c = true ->
              bytes_ltb a c = true.
Proof.
  induction a as [|x a IH]; intros [|y b] [|z c]; simpl; try discriminate;
    try reflexivity.
  unfold byte_eqb.
  destruct (N.ltb_spec (Byte.to_N x) (Byte.to_N y)) as [Lxy|Gxy];
    destruct (N.ltb_spec (Byte.to_N y) (Byte.to_N z)) as [Lyz|Gyz];
    destruct (N.ltb_spec (Byte.to_N x) (Byte.to_N z)) as [Lxz|Gxz];
    try reflexivity;
    destruct (N.eqb_spec (Byte.to_N x) (Byte.to_N y)) as [Exy|Nxy];
    destruct (N.eqb_spec (Byte.to_N y) (Byte.to_N z)) as [Eyz|Nyz];
    destruct (N.eqb_spec (Byte.to_N x) (Byte.to_N z)) as [Exz|Nxz];
    try discriminate; try lia; intros; eauto.
Qed.

Lemma bytes_ltb_total (a : bytes) :
  forall b, bytes_ltb a b = false -> bytes_eqb a b = false ->
            bytes_ltb b a = true.
Proof.
  induction a as [|x a IH]; intros [|y b]; simpl; try discriminate;
    try reflexivity.
  unfold byte_eqb.
  destruct (N.ltb_spec (Byte.to_N x) (Byte.to_N y)) as [Lxy|Gxy];
    [discriminate|].
  destruct (N.eqb_spec (Byte.to_N x) (Byte.to_N y)) as [Exy|Nxy]; simpl.
  - rewrite Exy, N.ltb_irrefl, N.eqb_refl. apply IH.
  - intros _ _. destruct (N.ltb_spec (Byte.to_N y) (Byte.to_N x)); [reflexivity|].
    lia.
Qed.

Lemma keys_above_trans (k k' : bytes) (ks : list bytes) :
  bytes_ltb k k' = true -> keys_above k' ks -> keys_above k ks.
Proof.
  intros L. induction ks as [|k0 r IH]; simpl; [trivial|].
  intros [L0 A]. split; [| now apply IH].
  now apply (bytes_ltb_trans k k' k0).
Qed.

Lemma keys_above_find_none {V} (k : bytes) (m : std_map V) :
  keys_above k (map fst m) -> map_find k m = None.
Proof.
  induction m as [|[k' v'] r IH]; simpl; [reflexivity|].
  intros [L A]. rewrite (bytes_ltb_not_eqb k k' L). now apply IH.
Qed.

Lemma map_sorted_nil {V} : map_sorted (@nil (bytes * V)).
Proof. exact I. Qed.

Lemma map_assign_keys_above {V} (k0 k : bytes) (v : V) (m : std_map V) :
  bytes_ltb k0 k = true -> keys_above k0 (map fst m) ->
  keys_above k0 (map fst (map_assign k v m)).
Proof.
  intros L. induction m as [|[k' v'] r IH]; simpl.
  - now split.
  - intros [L' A]. destruct (bytes_ltb k k'); simpl; [now repeat split|].
    destruct (bytes_eqb k k'); simpl; [now split|].
    split; [exact L' | now apply IH].
Qed.

Lemma map_insert_keys_above {V} (k0 k : bytes) (v : V) (m : std_map V) :
  bytes_ltb k0 k = true -> keys_above k0 (map fst m) ->
  keys_above k0 (map fst (map_insert k v m)).
Proof.
  intros L. induction m as [|[k' v'] r IH]; simpl.
  - now split.
  - intros [L' A]. destruct (bytes_ltb k k'); simpl; [now repeat split|].
    destruct (bytes_eqb k k'); simpl; [now split|].
    split; [exact L' | now apply IH].
Qed.

Lemma map_assign_sorted {V} (k : bytes) (v : V) (m : std_map V) :
  map_sorted m -> map_sorted (map_assign k v m).
Proof.
  unfold map_sorted. induction m as [|[k' v'] r IH]; simpl.
  - now split.
  - intros [A S]. destruct (bytes_ltb k k') eqn:L; simpl.
    + repeat split; try assumption. now apply (keys_above_trans k k').
    + destruct (bytes_eqb k k') eqn:E; simpl.
      * apply bytes_eqb_eq in E. subst k'. now split.
      * split; [| now apply IH].
        apply map_assign_keys_above; [| exact A].
        now apply bytes_ltb_total.
Qed.

Lemma map_insert_sorted {V} (k : bytes) (v : V) (m : std_map V) :
  map_sorted m -> map_sorted (map_insert k v m).
Proof.
  unfold map_sorted. induction m as [|[k' v'] r IH]; simpl.
  - now split.
  - intros [A S]. destruct (bytes_ltb k k') eqn:L; simpl.
    + repeat split; try assumption. now apply (keys_above_trans k k').
    + destruct (bytes_eqb k k') eqn:E; simpl.
      * now split.
      * split; [| now apply IH].
        apply map_insert_keys_above; [| exact A].
        now apply bytes_ltb_total.
Qed.

(** [insert] on a key that is present changes nothing. *)
Lemma map_insert_present {V} (k : bytes) (v v0 : V) (m : std_map V) :
  map_sorted m -> map_find k m = Some v0 -> map_insert k v m = m.
Proof.
  unfold map_sorted. induction m as [|[k' v'] r IH]; simpl; [discriminate|].
  intros [A S] F. destruct (bytes_ltb k k') eqn:L.
  - rewrite (bytes_ltb_not_eqb k k' L) in F.
    rewrite (keys_above_find_none k r) in F; [discriminate|].
    now apply (keys_above_trans k k').
  - destruct (bytes_eqb k k'); [reflexivity|].
    f_equal. now apply IH.
Qed.

End MapOrder.

Module KeyStoreSorted.
Import KeyStore KeyStoreNotions KeyStoreProperties KeyStoreMore MapOrder.

Section WithCollaborators.
Context `{Collaborators}.

Ltac sorted_modify :=
  apply preserves_modify; intros ? (S1 & S2 & S3 & S4 & S5);
  unfold maps_sorted; simpl; repeat split;
  auto using map_assign_sorted, map_insert_sorted, map_sorted_nil.

Ltac sorted :=
  cbv beta zeta delta
    [Lock Unlock AddKeyPubKey AddCryptedKey GetKey GetPubKey AddSpendingKey
     AddCryptedSpendingKey GetSpendingKey SetCrypted NotifyStatusChanged
     CBasicKeyStore_AddKeyPubKey CBasicKeyStore_GetKey CKeyStore_GetPubKey
     CBasicKeyStore_AddSpendingKey CBasicKeyStore_GetSpendingKey];
  repeat (preserve_step sorted_modify).

Lemma run_op_sorted (o : op) (s : Store) :
  maps_sorted s -> maps_sorted (run_op o s).
Proof.
  assert (forall mk entries, preserves maps_sorted (EncryptKeys_keys mk entries))
    as L1 by (induction entries as [|e rest IH]; simpl; sorted).
  assert (forall mk entries,
            preserves maps_sorted (EncryptKeys_spending mk entries))
    as L2 by (induction entries as [|e rest IH]; simpl; sorted).
  assert (forall A (m : M A), preserves maps_sorted m ->
            maps_sorted s -> maps_sorted (snd (m s))) as Use
    by (intros A m Pm; apply Pm).
  destruct o; simpl; apply Use; try (unfold EncryptKeys); sorted.
Qed.

Lemma reachable_sorted (os : list op) : maps_sorted (run_ops os Store_new).
Proof.
  assert (forall s, maps_sorted s -> maps_sorted (run_ops os s)) as Step.
  { unfold run_ops. induction os as [|o os IH]; simpl; intros s S; [exact S|].
    apply IH. now apply run_op_sorted. }
  apply Step. repeat split.
Qed.

Lemma map_find_insert_absent {V} (k : bytes) (v : V) (m : std_map V) :
  map_find k m = None -> map_find k (map_insert k v m) = Some v.
Proof.
  induction m as [|[k' v'] r IH]; simpl.
  - now rewrite bytes_eqb_refl.
  - destruct (bytes_ltb k k'); simpl.
    + now rewrite bytes_eqb_refl.
    + destruct (bytes_eqb k k') eqn:E; [discriminate|]. simpl.
      now rewrite E.
Qed.

Lemma AddCryptedSpendingKey_accepted (s : Store) (a : PaymentAddress)
    (vk : ViewingKey) (ct : bytes) :
  fst (SetCrypted s) = Ret true ->
  AddCryptedSpendingKey a vk ct s
  = (Ret true,
     set_mapNoteDecryptors (map_insert a vk (mapNoteDecryptors s))
       (set_mapCryptedSpendingKeys
          (map_assign a ct (mapCryptedSpendingKeys s))
          (set_fUseCrypto true s))).
Proof.
  intros Acc. destruct (SetCrypted_cases s) as [[E _]|E]; rewrite E in Acc;
    [discriminate|].
  unfold AddCryptedSpendingKey, bind. now rewrite E.
Qed.

(** X19: in a store reached from a freshly constructed one, when
    [AddCryptedSpendingKey] is accepted the ciphertext handed in becomes
    the record of the address, replacing any earlier ciphertext; the note
    decryptor of the address, however, is the one of the first viewing key
    cached for it: a viewing key handed in later for the same address is
    ignored, and a viewing key is cached only when the address had none. *)
Theorem note_decryptor_is_kept (os : list op) (a : PaymentAddress)
    (vk : ViewingKey) (ct : bytes) :
  let s := run_ops os Store_new in
  let s' := snd (AddCryptedSpendingKey a vk ct s) in
  fst (SetCrypted s) = Ret true ->
  fst (AddCryptedSpendingKey a vk ct s) = Ret true /\
  map_find a (mapCryptedSpendingKeys s') = Some ct /\
  (forall vk0, map_find a (mapNoteDecryptors s) = Some vk0 ->
     mapNoteDecryptors s' = mapNoteDecryptors s /\
     map_find a (mapNoteDecryptors s') = Some vk0) /\
  (map_find a (mapNoteDecryptors s) = None ->
   map_find a (mapNoteDecryptors s') = Some vk).
Proof.
  intros s s' Acc. subst s'. subst s.
  rewrite (AddCryptedSpendingKey_accepted _ a vk ct Acc).
  cbn [snd fst mapCryptedSpendingKeys mapNoteDecryptors set_mapNoteDecryptors
       set_mapCryptedSpendingKeys set_fUseCrypto].
  split; [reflexivity|]. split; [apply map_find_assign|]. split.
  - intros vk0 F.
    destruct (reachable_sorted os) as (_ & _ & S3 & _ & _).
    rewrite (map_insert_present a vk vk0 _ S3 F). now split.
  - apply map_find_insert_absent.
Qed.

End WithCollaborators.
End KeyStoreSorted.

(** * Stored ciphertexts shorter than the tag *)

Module ShortCiphertext.
Import KeyStore KeyStoreNotions KeyStoreProperties KeyStoreMore.

Section WithCollaborators.
Context `{Collaborators}.

(** X20: on a store in encrypted mode whose first transparent-key record
    has a ciphertext shorter than the authentication tag (a record loaded
    with [AddCryptedKey], which accepts any ciphertext), [Unlock] with a
    candidate key of the fixed size throws instead of returning, and so
    does [GetKey] for that identity while a master key of the fixed size
    is held; the store is left unchanged.  With no master key held,
    [GetKey] returns [false] on the same record. *)
Theorem short_record_throws (s : Store) (id : CKeyID) (pk : CPubKey)
    (ct : bytes) (rest : std_map (CPubKey * bytes)) :
  fUseCrypto s = true ->
  mapCryptedKeys s = (id, (pk, ct)) :: rest ->
  Z.of_nat (length ct) < crypto_secretbox_MACBYTES ->
  (forall mk, length mk = WALLET_CRYPTO_KEY_SIZE ->
     Unlock mk s = (Throw, s)) /\
  (forall k, length (vMasterKey s) = WALLET_CRYPTO_KEY_SIZE ->
     GetKey id k s = (Throw, s)) /\
  (forall k, vMasterKey s = [] -> GetKey id k s = (Ret (false, k), s)).
Proof.
  intros Hc Rec Short. split; [| split].
  - intros mk Hk. apply (Unlock_scan_throws s s mk (SetCrypted_crypted s Hc)).
    unfold Unlock_scan. rewrite Rec. simpl. unfold DecryptKey.
    now rewrite (DecryptSecret_short_throws mk ct _ [] Hk Short).
  - intros k Hk. rewrite (GetKey_crypted s id k Hc), Rec. simpl.
    rewrite bytes_eqb_refl. unfold DecryptKey.
    now rewrite (DecryptSecret_short_throws _ ct _ [] Hk Short).
  - intros k MK. apply GetKey_unsized_master_key; [exact Hc|].
    rewrite MK. apply empty_master_key_not_sized.
Qed.

End WithCollaborators.
End ShortCiphertext.

(** * The further properties on the sample instance *)

Module SampleRunsMore.
Import Crypter KeyStore KeyStoreNotions KeyStoreProperties KeyStoreMore.
Import KeyStoreSorted ShortCiphertext CrypterMore Sample SampleMore SampleRuns.

Lemma sample_pubkey_form_contract : pubkey_form_contract.
Proof.
  intros secret [|] L; simpl.
  - now rewrite L.
  - rewrite length_app, L. reflexivity.
Qed.

Lemma sample_spending_key_contract : spending_key_contract.
Proof. intros sk. reflexivity. Qed.

Lemma SetKeyFromPassphrase_failure_witness :
  SetKeyFromPassphrase cipher_A passphrase salt 0 0 [x08] = (false, cipher_A) /\
  SetKeyFromPassphrase cipher_A passphrase salt 1 0 [] = (false, cipher_A) /\
  fKeySet (snd (SetKeyFromPassphrase CCrypter_new passphrase salt 1 0 [x08]))
  = true.
Proof.
  destruct (SetKeyFromPassphrase_failure cipher_A passphrase salt 0 0 [x08])
    as (Iff0 & Same0 & _).
  destruct (SetKeyFromPassphrase_failure cipher_A passphrase salt 1 0 [])
    as (Iff1 & Same1 & _).
  destruct (SetKeyFromPassphrase_failure CCrypter_new passphrase salt 1 0 [x08])
    as (_ & _ & Ready).
  assert (fst (SetKeyFromPassphrase cipher_A passphrase salt 0 0 [x08]) = false)
    as F0 by (apply Iff0; left; reflexivity).
  assert (fst (SetKeyFromPassphrase cipher_A passphrase salt 1 0 []) = false)
    as F1 by (apply Iff1; right; right; split; [reflexivity | left; reflexivity]).
  split; [| split].
  - rewrite (surjective_pairing (SetKeyFromPassphrase _ _ _ _ _ _)).
    now rewrite F0, (Same0 F0).
  - rewrite (surjective_pairing (SetKeyFromPassphrase _ _ _ _ _ _)).
    now rewrite F1, (Same1 F1).
  - apply Ready. reflexivity.
Defined.

Lemma SetKeyFromPassphrase_splits_derived_bytes_witness :
  exists c',
    SetKeyFromPassphrase CCrypter_new passphrase salt 1 0 [x08] = (true, c') /\
    fKeySet c' = true /\
    chKey c' ++ chIV c' = pad 64 (passphrase ++ salt) /\
    length (chKey c') = WALLET_CRYPTO_KEY_SIZE /\
    length (chIV c') = WALLET_CRYPTO_KEY_SIZE.
Proof.
  apply (SetKeyFromPassphrase_splits_derived_bytes CCrypter_new passphrase salt
           1 [x08] (pad 64 (passphrase ++ salt)) 8).
  - lia.
  - reflexivity.
  - reflexivity.
  - reflexivity.
  - reflexivity.
Defined.

Lemma SetKey_sizes_witness :
  snd (SetKey CCrypter_new K (PubKey_GetHash pubA)) = cipher_A /\
  snd (SetKey cipher_A K_short (PubKey_GetHash pubA)) = cipher_A.
Proof.
  destruct (SetKey_sizes CCrypter_new K (PubKey_GetHash pubA)) as (Iff & Set' & _).
  destruct (SetKey_sizes cipher_A K_short (PubKey_GetHash pubA)) as (_ & _ & Same).
  split.
  - apply Set'. apply Iff. split; reflexivity.
  - apply Same. reflexivity.
Defined.

Lemma Encrypt_ciphertext_length_witness :
  exists ok ct,
    Encrypt cipher_A (key_secret keyA) [] = Ret (ok, ct) /\
    Z.of_nat (length ct)
    = Z.of_nat (length (key_secret keyA)) + crypto_secretbox_MACBYTES.
Proof.
  apply (Encrypt_ciphertext_length cipher_A (key_secret keyA) []).
  - reflexivity.
  - vm_compute. discriminate.
Defined.

Lemma secrets_need_sized_master_key_witness :
  EncryptSecret [] (key_secret keyA) (PubKey_GetHash pubA) [] = Ret (false, []) /\
  DecryptSecret [] (key_secret keyA) (PubKey_GetHash pubA) [] = Ret (false, []) /\
  DecryptKey [] (key_secret keyA) pubA keyB = Ret (false, keyB) /\
  DecryptSpendingKey [] (key_secret keyA) pubA skS = Ret (false, skS).
Proof.
  apply (secrets_need_sized_master_key [] (key_secret keyA) []
           (PubKey_GetHash pubA) pubA keyB skS).
  discriminate.
Defined.

Lemma GetSpendingKey_in_crypted_mode_witness :
  GetSpendingKey addrS [] store_A_unlocked = (Ret (false, []), store_A_unlocked) /\
  fst (GetSpendingKey addrS [] store_ABS_unlocked) = Ret (true, skS) /\
  GetSpendingKey addrX [] store_S_cross = (Ret (false, skS), store_S_cross) /\
  GetSpendingKey addrS [] store_S_short = (Throw, store_S_short).
Proof.
  destruct (GetSpendingKey_in_crypted_mode store_A_unlocked addrS [] eq_refl)
    as (Miss & _).
  destruct (GetSpendingKey_in_crypted_mode store_ABS_unlocked addrS [] eq_refl)
    as (_ & Found & _).
  destruct (GetSpendingKey_in_crypted_mode store_S_cross addrX [] eq_refl)
    as (_ & Cross & _).
  destruct (GetSpendingKey_in_crypted_mode store_S_short addrS [] eq_refl)
    as (_ & _ & Thrown).
  split; [| split; [| split]].
  - apply Miss. reflexivity.
  - assert (map_find addrS (mapCryptedSpendingKeys store_ABS_unlocked)
            = Some (crypted_spending_secret K skS)) as F
      by (vm_compute; reflexivity).
    assert (DecryptSecret (vMasterKey store_ABS_unlocked)
              (crypted_spending_secret K skS)
              (PaymentAddress_GetHash addrS) [] = Ret (true, skS)) as D
      by (vm_compute; reflexivity).
    destruct (Found _ true skS F D) as [Ok _].
    destruct (Ok eq_refl eq_refl) as (_ & Iff & _).
    apply (proj2 Iff). reflexivity.
  - assert (map_find addrX (mapCryptedSpendingKeys store_S_cross) = Some ctX)
      as F by (vm_compute; reflexivity).
    assert (DecryptSecret (vMasterKey store_S_cross) ctX
              (PaymentAddress_GetHash addrX) [] = Ret (true, skS)) as D
      by (vm_compute; reflexivity).
    destruct (Cross _ true skS F D) as [Ok _].
    destruct (Ok eq_refl eq_refl) as (_ & _ & Mismatch).
    apply Mismatch. intros E. vm_compute in E. discriminate E.
  - apply (Thrown []).
    + vm_compute. reflexivity.
    + vm_compute. reflexivity.
    + reflexivity.
Defined.

Lemma locked_store_gives_no_secret_witness :
  GetKey (PubKey_GetID pubA) keyB store_A = (Ret (false, keyB), store_A) /\
  GetSpendingKey addrS skS store_A = (Ret (false, skS), store_A) /\
  AddKeyPubKey keyB pubB store_A = (Ret false, store_A) /\
  AddSpendingKey skS store_A = (Ret false, store_A).
Proof.
  destruct (locked_store_gives_no_secret store_A eq_refl) as (G & GS & A & AS).
  split; [apply G | split; [apply GS | split; [apply A | apply AS]]].
Defined.

Lemma AddCryptedKey_then_GetPubKey_witness :
  GetPubKey (PubKey_GetID pubA) [] store_A = (Ret (true, pubA), store_A) /\
  AddCryptedKey pubB (crypted_secret K keyB) store_plain_A
  = (Ret false, store_plain_A).
Proof.
  destruct (AddCryptedKey_then_GetPubKey Store_new pubA (crypted_secret K keyA) [])
    as (Acc & _).
  destruct (AddCryptedKey_then_GetPubKey store_plain_A pubB
              (crypted_secret K keyB) []) as (_ & Ref).
  split.
  - apply (Acc eq_refl).
  - apply Ref. reflexivity.
Defined.

Lemma Lock_then_locked_witness :
  IsLocked (snd (Lock store_A_unlocked)) = true /\
  GetKey (PubKey_GetID pubA) CKey_new (snd (Lock store_A_unlocked))
  = (Ret (false, CKey_new), snd (Lock store_A_unlocked)).
Proof.
  destruct (Lock_then_locked store_A_unlocked eq_refl)
    as (_ & L & _ & _ & _ & G).
  split; [exact L | apply G].
Defined.

Lemma Unlock_plain_store_witness :
  Unlock K store_plain_A = (Ret false, store_plain_A) /\
  Unlock K Store_new = (Ret false, set_fUseCrypto true Store_new).
Proof.
  split.
  - apply (proj1 (Unlock_plain_store store_plain_A K eq_refl)).
    left. intros E. vm_compute in E. discriminate E.
  - apply (proj2 (Unlock_plain_store Store_new K eq_refl)); reflexivity.
Defined.

Lemma sample_records_decrypt :
  records_decrypt K store_A /\ records_decrypt K store_migrated.
Proof.
  split; split; repeat constructor; eexists; vm_compute; reflexivity.
Qed.

Lemma Unlock_with_matching_key_witness :
  fst (Unlock K store_A) = Ret true /\
  vMasterKey (snd (Unlock K store_A)) = K /\
  IsLocked (snd (Unlock K store_A)) = false.
Proof.
  destruct (Unlock_with_matching_key store_A K eq_refl
              (proj1 sample_records_decrypt))
    as (U & MK & _ & _ & _ & _ & L).
  { left. intros E. vm_compute in E. discriminate E. }
  split; [exact U | split; [exact MK | apply L; reflexivity]].
Defined.

Lemma first_Unlock_checks_every_record_witness :
  records_decrypt K store_AB_K /\ vMasterKey (snd (Unlock K store_AB_K)) = K.
Proof.
  apply (first_Unlock_checks_every_record store_AB_K K); reflexivity.
Defined.

Lemma AddKeyPubKey_then_GetKey_witness :
  fst (AddKeyPubKey keyB pubB store_A_unlocked) = Ret true /\
  GetKey (PubKey_GetID pubB) CKey_new
    (snd (AddKeyPubKey keyB pubB store_A_unlocked))
  = (Ret (true, keyB), snd (AddKeyPubKey keyB pubB store_A_unlocked)).
Proof.
  apply (AddKeyPubKey_then_GetKey store_A_unlocked keyB CKey_new
           sample_secretbox_contract sample_pubkey_form_contract);
    reflexivity.
Defined.

Lemma AddSpendingKey_then_GetSpendingKey_witness :
  fst (AddSpendingKey skS store_A_unlocked) = Ret true /\
  GetSpendingKey addrS [] (snd (AddSpendingKey skS store_A_unlocked))
  = (Ret (true, skS), snd (AddSpendingKey skS store_A_unlocked)) /\
  mapNoteDecryptors (snd (AddSpendingKey skS store_A_unlocked))
  = map_insert addrS (SpendingKey_viewing_key skS)
      (mapNoteDecryptors store_A_unlocked).
Proof.
  apply (AddSpendingKey_then_GetSpendingKey store_A_unlocked skS []
           sample_secretbox_contract sample_spending_key_contract).
  - reflexivity.
  - reflexivity.
  - reflexivity.
  - vm_compute. discriminate.
Defined.

Lemma operations_frame_witness :
  run_op (OpGetKey (PubKey_GetID pubA)) store_A_unlocked = store_A_unlocked /\
  vMasterKey (run_op (OpAddKeyPubKey keyB pubB) store_A_unlocked) = K /\
  mapCryptedKeys (run_op OpLock store_A_unlocked)
  = mapCryptedKeys store_A_unlocked.
Proof.
  split; [| split].
  - apply (proj1 (operations_frame (OpGetKey (PubKey_GetID pubA))
                    store_A_unlocked)).
    reflexivity.
  - apply (proj1 (proj2 (operations_frame (OpAddKeyPubKey keyB pubB)
                           store_A_unlocked))).
    reflexivity.
  - apply (proj2 (proj2 (operations_frame OpLock store_A_unlocked))).
    reflexivity.
Defined.

Lemma EncryptKeys_unsized_master_key_witness :
  fst (EncryptKeys K_short store_plain_A) = Ret false /\
  fUseCrypto (snd (EncryptKeys K_short store_plain_A)) = true /\
  mapKeys (snd (EncryptKeys K_short store_plain_A)) = mapKeys store_plain_A /\
  fst (GetKey (PubKey_GetID pubA) CKey_new
         (snd (EncryptKeys K_short store_plain_A))) = Ret (false, CKey_new).
Proof.
  destruct (EncryptKeys_unsized_master_key store_plain_A K_short
              eq_refl eq_refl)
    as (R & C & MK & _ & _ & _ & G & _).
  { discriminate. }
  { left. intros E. vm_compute in E. discriminate E. }
  split; [exact R | split; [exact C | split; [exact MK |]]].
  now rewrite G.
Defined.

Lemma sample_plain_keys_sized : plain_keys_sized store_plain_ABS.
Proof.
  split; repeat constructor; vm_compute; try reflexivity; discriminate.
Qed.

Lemma EncryptKeys_then_Unlock_witness :
  fst (EncryptKeys K store_plain_ABS) = Ret true /\
  mapKeys store_migrated = [] /\ mapSpendingKeys store_migrated = [] /\
  vMasterKey store_migrated = [] /\
  fst (Unlock K store_migrated) = Ret true.
Proof.
  destruct (EncryptKeys_then_Unlock store_plain_ABS K
              sample_secretbox_contract sample_pubkey_form_contract
              sample_spending_key_contract eq_refl eq_refl eq_refl eq_refl
              sample_plain_keys_sized)
    as (R & E1 & E2 & _ & MK & _ & U).
  split; [exact R | split; [exact E1 | split; [exact E2 | split; [exact MK|]]]].
  apply U. left. intros E. vm_compute in E. discriminate E.
Defined.

Lemma plain_mode_is_clean_witness :
  mapCryptedKeys (run_ops [OpAddKeyPubKey keyA pubA; OpUnlock K; OpLock]
                    Store_new) = [] /\
  vMasterKey (run_op (OpAddCryptedKey pubB []) store_plain_A) = [].
Proof.
  split.
  - apply (proj1 (plain_mode_is_clean
                    [OpAddKeyPubKey keyA pubA; OpUnlock K; OpLock])).
    reflexivity.
  - destruct (proj2 (plain_mode_is_clean []) (OpAddCryptedKey pubB [])
                store_plain_A eq_refl) as (_ & _ & _ & MK & _).
    exact MK.
Defined.

Lemma note_decryptor_is_kept_witness :
  map_find addrS
    (mapCryptedSpendingKeys
       (snd (AddCryptedSpendingKey addrS vk2 ct2
               (run_ops [OpAddCryptedSpendingKey addrS vk1 ct1] Store_new))))
  = Some ct2 /\
  map_find addrS
    (mapNoteDecryptors
       (snd (AddCryptedSpendingKey addrS vk2 ct2
               (run_ops [OpAddCryptedSpendingKey addrS vk1 ct1] Store_new))))
  = Some vk1 /\
  map_find addrS
    (mapNoteDecryptors (snd (AddCryptedSpendingKey addrS vk1 ct1 Store_new)))
  = Some vk1.
Proof.
  destruct (note_decryptor_is_kept [OpAddCryptedSpendingKey addrS vk1 ct1]
              addrS vk2 ct2 eq_refl) as (_ & C & Kept & _).
  destruct (note_decryptor_is_kept [] addrS vk1 ct1 eq_refl)
    as (_ & _ & _ & Fresh).
  split; [exact C | split].
  - apply (Kept vk1). reflexivity.
  - apply Fresh. reflexivity.
Defined.

Lemma short_record_throws_witness :
  Unlock K store_truncated = (Throw, store_truncated) /\
  GetKey (PubKey_GetID pubA) CKey_new store_truncated_unlocked
  = (Throw, store_truncated_unlocked) /\
  GetKey (PubKey_GetID pubA) CKey_new store_truncated
  = (Ret (false, CKey_new), store_truncated).
Proof.
  destruct (short_record_throws store_truncated (PubKey_GetID pubA) pubA [] []
              eq_refl eq_refl) as (U & _ & G0).
  { vm_compute. reflexivity. }
  destruct (short_record_throws store_truncated_unlocked (PubKey_GetID pubA)
              pubA [] [] eq_refl eq_refl) as (_ & G & _).
  { vm_compute. reflexivity. }
  split; [apply U; reflexivity | split].
  - apply G. reflexivity.
  - apply G0. reflexivity.
Defined.

End SampleRunsMore.
